(** * oclip: positional-argument definitions, binding and command dispatch

    A shallow embedding of [src/args.ts] and [src/command.ts].

    - [Js]   : the fragment of JavaScript values, exceptions and arrays the
               two files compute with;
    - [Args] : argument specs, the builder, the definition validator and
               the binder ([validateArgs]), over a heap of spec objects and
               arrays so that the in-place updates of the source are
               visible;
    - [Cmd]  : the [Command] constructor and [exec];
    - [Shape], [Samples], [CommandSamples] : the vocabulary of the
               specification (tags, monotonic lists, the filling phase of
               the binder) and concrete definition lists and commands;
    - [ValidatorFacts], [BinderFacts], [CommandFacts] : what is proved. *)

From Stdlib Require Import ZArith String List Lia DecimalString.
From stdpp Require Import base list.
Import ListNotations.
Local Open Scope Z_scope.
Set Warnings "-register-all".

(* ===================================================================== *)
(** ** JavaScript values, exceptions, arrays *)
(* ===================================================================== *)

Module Js.

(** Heap addresses: object identity of spec objects and of arrays. *)
Definition loc := nat.

(** The values that travel through the binder ([any] in the source).
    Numbers are the integer-valued ones; a promise or a function stored in
    an argument slot is not modelled. *)
Inductive JsVal : Type :=
| JUndefined
| JNull
| JBool (b : bool)
| JNum (n : Z)
| JStr (s : string)
| JArr (l : list JsVal).

(** ToBoolean: [undefined], [null], [false], [0] and the empty string are
    the falsy values; every array is truthy. *)
Definition truthy (v : JsVal) : bool :=
  match v with
  | JUndefined | JNull => false
  | JBool b => b
  | JNum n => negb (n =? 0)
  | JStr s => negb (String.eqb s "")
  | JArr _ => true
  end.

(** Truthiness of an optional boolean field such as [rest?: boolean]:
    absent ([undefined]) and [false] are falsy. *)
Definition flag (b : option bool) : bool :=
  match b with Some true => true | _ => false end.

(** [b === true] on an optional boolean field. *)
Definition is_true (b : option bool) : bool :=
  match b with Some true => true | _ => false end.

Definition dquote : string := String (Ascii.ascii_of_nat 34) EmptyString.
Definition newline : string := String (Ascii.ascii_of_nat 10) EmptyString.

(** [Array.prototype.join] on strings. *)
Fixpoint join (sep : string) (l : list string) : string :=
  match l with
  | [] => EmptyString
  | [x] => x
  | x :: r => (x ++ sep ++ join sep r)%string
  end.

(** ToString, as applied by a template literal.  A number is printed as
    its decimal numeral, which is what JavaScript prints for the integers
    of magnitude below [1e21]; from there on JavaScript uses the exponent
    notation, which this function does not produce (see
    [prints_decimally]). *)
Fixpoint to_string (v : JsVal) : string :=
  match v with
  | JUndefined => "undefined"
  | JNull => "null"
  | JBool true => "true"
  | JBool false => "false"
  | JNum n => NilZero.string_of_int (Z.to_int n)
  | JStr s => s
  | JArr l =>
      (fix elts (l : list JsVal) : string :=
         match l with
         | [] => EmptyString
         | x :: r =>
             let sx := match x with
                       | JUndefined | JNull => EmptyString
                       | _ => to_string x
                       end in
             match r with
             | [] => sx
             | _ => (sx ++ "," ++ elts r)%string
             end
         end) l
  end.


(** [choices.includes(input)] for a [string[]]: SameValueZero against
    strings, so only a string input can be a member. *)
Definition includes (choices : list string) (input : JsVal) : bool :=
  match input with
  | JStr s => existsb (String.eqb s) choices
  | _ => false
  end.

(** Payload of the version signal (class [VersionSignal] of
    [./version]); only its [render()] text is ever used. *)
Record VersionInfo : Type := { rendered : string }.

(** What can be thrown.  [RequiredArgsError] carries the unsatisfied spec
    objects, [UnexpectedArgsError] the excess values, as the constructors
    of [./errors] are called in [args.ts].  [JsTypeError] is a TypeError
    raised by the engine itself; its message is the engine's wording and
    is not modelled. *)
Inductive Exn : Type :=
| JsError (message : string)
| JsTypeError
| RequiredArgsError (args : list loc)
| UnexpectedArgsError (args : list JsVal)
| VersionSignal (v : VersionInfo)
| Thrown (v : JsVal).

Inductive Res (A : Type) : Type :=
| Ok (a : A)
| Throw (e : Exn).
Arguments Ok {A} a.
Arguments Throw {A} e.

(** [a[i]] on an array: out of range, and a negative index (a property
    that is not an element), read [undefined]. *)
Definition arr_get (a : list JsVal) (i : Z) : JsVal :=
  if i <? 0 then JUndefined
  else match a !! Z.to_nat i with Some v => v | None => JUndefined end.

(** [a[i] = v]: within range the element is replaced; past the end the
    array grows and the gap reads [undefined]; a negative index sets a
    property and leaves length and elements alone. *)
Definition arr_set (a : list JsVal) (i : Z) (v : JsVal) : list JsVal :=
  if i <? 0 then a
  else
    let n := Z.to_nat i in
    if (n <? length a)%nat then <[n := v]> a
    else a ++ replicate (n - length a)%nat JUndefined ++ [v].

(** [a.slice(from)]: a negative [from] counts from the end. *)
Definition slice_from {A} (a : list A) (from : Z) : list A :=
  if from <? 0 then drop (length a - Z.to_nat (- from))%nat a
  else drop (Z.to_nat from) a.

End Js.

(* ===================================================================== *)
(** ** args.ts *)
(* ===================================================================== *)

Module Args.
Import Js.

(** [choices?: string[] | (() => string[] | Promise<string[]>)]. *)
Inductive Choices : Type :=
| ChoicesList (l : list string)
| ChoicesFn (f : unit -> Res (list string)).

(** [interface Arg<T>].  [parse] is declared on strings; the binder calls
    it on whatever sits in the slot, so it is a function on values here.
    The user-supplied [parse], [choices] and [default] are taken to have
    no effect on the heap.  [toString] is display only and left out. *)
Record Arg : Type := mkArg {
  id_ : Z;
  name : option string;
  description : option string;
  required : bool;
  rest : option bool;
  hidden : option bool;
  parse : JsVal -> Res JsVal;
  choices : option Choices;
  default_ : option (unit -> Res JsVal);
}.

Definition set_id (a : Arg) (i : Z) : Arg :=
  mkArg i (name a) (description a) (required a) (rest a) (hidden a)
        (parse a) (choices a) (default_ a).

(** *** The builder *)

(** [default?: T | (() => T) | (() => Promise<T>)]. *)
Inductive DefaultOpt : Type :=
| DefaultValue (v : JsVal)
| DefaultFn (f : unit -> Res JsVal).

(** [interface ArgOpts<T>], together with the two keys the entry points
    [required], [optional] and [rest] add to the bag they pass on. *)
Record ArgOpts : Type := mkOpts {
  o_description : option string;
  o_parse : option (JsVal -> Res JsVal);
  o_choices : option Choices;
  o_default : option DefaultOpt;
  o_required : option bool;
  o_rest : option bool;
}.

Definition no_opts : ArgOpts := mkOpts None None None None None None.

(** One key of [{...a, ...b}]: the later object wins where it has it. *)
Definition spread {A} (a b : option A) : option A :=
  match b with Some x => Some x | None => a end.

Definition spread_opts (a b : ArgOpts) : ArgOpts :=
  mkOpts (spread (o_description a) (o_description b))
         (spread (o_parse a) (o_parse b))
         (spread (o_choices a) (o_choices b))
         (spread (o_default a) (o_default b))
         (spread (o_required a) (o_required b))
         (spread (o_rest a) (o_rest b)).

(** A static default becomes a supplier of that constant. *)
Definition normalize_default (d : DefaultOpt) : unit -> Res JsVal :=
  match d with
  | DefaultValue v => fun _ => Ok v
  | DefaultFn f => f
  end.

Section Builder.
(** [argBuilder(defaultOptions)], with [defaultOptions.parse] present.
    The call shapes (name, description, options in any arity) are the
    triple [getParams] normalises them to. *)
Variable defaultOptions : ArgOpts.
Variable defaultParse : JsVal -> Res JsVal.

Definition arg_ (name : option string) (description : option string)
           (options : ArgOpts) : Arg :=
  let o := spread_opts defaultOptions options in
  {| id_ := -1;
     name := name;
     description := spread description (o_description options);
     required := match o_required options with Some b => b | None => true end;
     rest := o_rest o;
     hidden := None;
     parse := match o_parse o with Some p => p | None => defaultParse end;
     choices := o_choices o;
     default_ := option_map normalize_default (o_default o) |}.

Definition with_tag (description : option string) (options : ArgOpts)
           (req : bool) (rst : option bool) : ArgOpts :=
  let o := spread_opts defaultOptions options in
  mkOpts (spread description (o_description options))
         (o_parse o) (o_choices o) (o_default o) (Some req)
         (spread (o_rest o) rst).

Definition arg_required (name description : option string)
           (options : ArgOpts) : Arg :=
  arg_ name None (with_tag description options true None).

Definition arg_optional (name description : option string)
           (options : ArgOpts) : Arg :=
  arg_ name None (with_tag description options false None).

Definition arg_rest (name description : option string)
           (options : ArgOpts) : Arg :=
  arg_ name None (with_tag description options false (Some true)).
End Builder.

(** [export const arg = argBuilder({parse: (s: string) => s})]. *)
Definition identity_parse : JsVal -> Res JsVal := fun s => Ok s.
Definition arg_defaults : ArgOpts :=
  mkOpts None (Some identity_parse) None None None None.
Definition required_arg (n : string) : Arg :=
  arg_required arg_defaults identity_parse (Some n) None no_opts.
Definition optional_arg (n : string) : Arg :=
  arg_optional arg_defaults identity_parse (Some n) None no_opts.
Definition rest_arg (n : string) : Arg :=
  arg_rest arg_defaults identity_parse (Some n) None no_opts.

(** *** The definition validator *)

Inductive State : Type := SRequired | SOptional | SRest.

Definition msg_required_after_optional : string :=
  "required arguments may not follow optional arguments".
Definition msg_rest_last : string :=
  "rest args must be the last ones defined".

(** The [for ... of] loop of [validateNothingRequiredAfterOptional], from
    a given state. *)
Fixpoint validate_from (state : State) (defs : list Arg) : Res unit :=
  match defs with
  | [] => Ok tt
  | def :: defs' =>
      match state with
      | SRequired =>
          if flag (rest def) then validate_from SRest defs'
          else if negb (required def) then validate_from SOptional defs'
          else validate_from SRequired defs'
      | SOptional =>
          if required def then Throw (JsError msg_required_after_optional)
          else if is_true (rest def) then validate_from SRest defs'
          else validate_from SOptional defs'
      | SRest => Throw (JsError msg_rest_last)
      end
  end.

Definition validateNothingRequiredAfterOptional (defs : list Arg) : Res unit :=
  validate_from SRequired defs.

Definition numOptionalArgs (args : list Arg) : Z :=
  fold_left (fun total arg => if flag (rest arg) then -1 else total + 1) args 0.

Definition validateArgDefs (argDefs : list Arg) : Res unit :=
  validateNothingRequiredAfterOptional argDefs.

(** *** The heap

    Spec objects and arrays are shared with the caller and updated in
    place, so both live in a heap and are passed by address.  A
    definition list is a list of addresses of spec objects: the same
    object may sit at more than one position. *)

Record Heap : Type := mkHeap {
  objs : loc -> Arg;
  arrs : loc -> list JsVal;
}.

(** A computation that may update the heap and may throw. *)
Definition M (A : Type) : Type := Heap -> Heap * Res A.

Definition ret {A} (a : A) : M A := fun h => (h, Ok a).
Definition throw {A} (e : Exn) : M A := fun h => (h, Throw e).
Definition lift {A} (r : Res A) : M A := fun h => (h, r).
Definition bind {A B} (m : M A) (k : A -> M B) : M B :=
  fun h => match m h with
           | (h', Ok a) => k a h'
           | (h', Throw e) => (h', Throw e)
           end.

Local Notation "x <- m ;; k" := (bind m (fun x => k))
  (at level 100, m at next level, right associativity).
Local Notation "m ;;; k" := (bind m (fun _ => k))
  (at level 100, right associativity).

Definition read_def (def : loc) : M Arg := fun h => (h, Ok (objs h def)).

Definition write_id (def : loc) (i : Z) : M unit :=
  fun h => (mkHeap (fun r => if Nat.eqb r def then set_id (objs h r) i
                             else objs h r)
                   (arrs h), Ok tt).

Definition arr_contents (a : loc) : M (list JsVal) :=
  fun h => (h, Ok (arrs h a)).

Definition arr_read (a : loc) (i : Z) : M JsVal :=
  fun h => (h, Ok (arr_get (arrs h a) i)).

(** The heap after [a[i] = v]. *)
Definition write (h : Heap) (a : loc) (i : Z) (v : JsVal) : Heap :=
  mkHeap (objs h)
         (fun r => if Nat.eqb r a then arr_set (arrs h r) i v else arrs h r).
Arguments write : simpl never.

Definition arr_write (a : loc) (i : Z) (v : JsVal) : M unit :=
  fun h => (write h a i v, Ok tt).

(** [for (const x of l) body]. *)
Fixpoint for_of {A} (l : list A) (body : A -> M unit) : M unit :=
  match l with
  | [] => ret tt
  | x :: l' => body x ;;; for_of l' body
  end.

(** *** The binder *)

(** [for (let i = from; i < args.length; i++) args[i].id = i]. *)
Fixpoint addIdToArgs_from (i : nat) (args : list loc) : M unit :=
  match args with
  | [] => ret tt
  | a :: args' => write_id a (Z.of_nat i) ;;; addIdToArgs_from (S i) args'
  end.

Definition addIdToArgs (args : list loc) : M unit := addIdToArgs_from 0 args.

Definition resolve_choices (c : Choices) : Res (list string) :=
  match c with
  | ChoicesList l => Ok l
  | ChoicesFn f => f tt
  end.

Definition invalid_choice_message (input : JsVal) (cs : list string) : string :=
  ("Expected " ++ dquote ++ to_string input ++ dquote ++ " to be one of:"
     ++ newline ++ join newline cs)%string.

(** Body of the first loop of [validateArgs]. *)
Definition bind_supplied (args : loc) (def : loc) : M unit :=
  d <- read_def def ;;
  input <- arr_read args (id_ d) ;;
  match choices d with
  | Some c =>
      cs <- lift (resolve_choices c) ;;
      if negb (includes cs input)
      then throw (JsError (invalid_choice_message input cs))
      else ret tt
  | None => ret tt
  end ;;;
  v <- lift (parse d input) ;;
  arr_write args (id_ d) v.

(** Body of the second loop: [def.default && await def.default()], then
    skip on [undefined]. *)
Definition fill_missing (args : loc) (def : loc) : M unit :=
  d <- read_def def ;;
  arg <- match default_ d with
         | Some supplier => lift (supplier tt)
         | None => ret JUndefined
         end ;;
  match arg with
  | JUndefined => ret tt
  | _ => arr_write args (id_ d) arg
  end.

(** [defs.filter(a => a.required && !args[a.id])]. *)
Definition missingRequired (h : Heap) (defs : list loc) (args : loc) : list loc :=
  List.filter
    (fun a => required (objs h a)
              && negb (truthy (arr_get (arrs h args) (id_ (objs h a)))))
    defs.

(** The value [validateArgs] resolves to; [subcommand] is never set. *)
Record ValidateResult (C : Type) : Type := { subcommand : option C }.
Arguments subcommand {C} _.

Definition validateArgs {Ctx C : Type} (ctx : Ctx) (defs : list loc)
           (args : loc) : M (ValidateResult C) :=
  addIdToArgs defs ;;;
  maxArgs <- (fun h => (h, Ok (numOptionalArgs (map (objs h) defs)))) ;;
  let subcommand : option C := None in
  before <- arr_contents args ;;
  for_of (take (length before) defs) (bind_supplied args) ;;;
  parsed <- arr_contents args ;;
  let missingArgs := drop (length parsed) defs in
  for_of missingArgs (fill_missing args) ;;;
  missingRequiredArgs <- (fun h => (h, Ok (missingRequired h defs args))) ;;
  (if negb (length missingRequiredArgs =? 0)%nat
   then throw (RequiredArgsError missingRequiredArgs)
   else ret tt) ;;;
  filled <- arr_contents args ;;
  if negb (maxArgs =? -1) && (Z.of_nat (length filled) >? maxArgs)
  then throw (UnexpectedArgsError (slice_from filled maxArgs))
  else ret {| subcommand := subcommand |}.

End Args.

(* ===================================================================== *)
(** ** command.ts *)
(* ===================================================================== *)

Module Cmd.
Import Js Args.

(** What a run of [exec] can see and change besides its result: the heap
    of spec objects and arrays, the lines written with [console.log], and
    [process.argv]. *)
Record World : Type := mkWorld {
  heap : Heap;
  stdout : list string;
  process_argv : list string;
}.

(** An asynchronous computation, awaited: it updates the world and
    resolves or rejects, or never settles ([None]). *)
Definition IO (A : Type) : Type := World -> option (World * Res A).

Definition io_ret {A} (a : A) : IO A := fun w => Some (w, Ok a).
Definition io_throw {A} (e : Exn) : IO A := fun w => Some (w, Throw e).
Definition io_bind {A B} (m : IO A) (k : A -> IO B) : IO B :=
  fun w => match m w with
           | None => None
           | Some (w', Ok a) => k a w'
           | Some (w', Throw e) => Some (w', Throw e)
           end.

(** [try { body } catch (err) { handler(err) }]. *)
Definition try_catch {A} (body : IO A) (handler : Exn -> IO A) : IO A :=
  fun w => match body w with
           | None => None
           | Some (w', Ok a) => Some (w', Ok a)
           | Some (w', Throw e) => handler e w'
           end.

Local Notation "x <- m ;; k" := (io_bind m (fun x => k))
  (at level 100, m at next level, right associativity).
Local Notation "m ;;; k" := (io_bind m (fun _ => k))
  (at level 100, right associativity).

Definition console_log (line : string) : IO unit :=
  fun w => Some (mkWorld (heap w) (stdout w ++ [line]) (process_argv w), Ok tt).

(** [err instanceof VersionSignal]. *)
Definition instanceof_VersionSignal (err : Exn) : bool :=
  match err with VersionSignal _ => true | _ => false end.

(** [err.render()] of a version signal. *)
Definition render (v : VersionInfo) : string := rendered v.

Section Command.
(** The collaborators outside [command.ts]: the flag schema and the
    parsed flags of [./flags], the context of [./context]. *)
Variable Flags : Type.
Variable FlagValues : Type.
Variable Context : Type.
(** [{} as F]. *)
Variable no_flags : Flags.

Record RunParams : Type := {
  rp_args : list JsVal;
  rp_flags : FlagValues;
  rp_ctx : Context;
}.

Definition RunFunc : Type := RunParams -> IO JsVal.

(** [interface FullOptions], over the type of the child commands. *)
Record FullOptionsOf (Cmd : Type) : Type := mkFullOptions {
  args : list loc;
  flags : Flags;
  run : option RunFunc;
  subcommands : option (list (string * Cmd));
}.
Arguments mkFullOptions {Cmd}.
Arguments args {Cmd}.
Arguments flags {Cmd}.
Arguments run {Cmd}.
Arguments subcommands {Cmd}.

(** [class Command]: its one field, [options]. *)
Inductive Command : Type :=
| mkCommand (options : FullOptionsOf Command).

Definition FullOptions : Type := FullOptionsOf Command.

Definition options (c : Command) : FullOptions :=
  match c with mkCommand o => o end.

(** [type Options]: every key of [FullOptions] optional; the
    constructor also accepts no options at all, which spreads like the
    record without keys. *)
Record Options : Type := mkOptions {
  opt_args : option (list loc);
  opt_flags : option Flags;
  opt_run : option RunFunc;
  opt_subcommands : option (list (string * Command));
}.

(** [{args: [], flags: {} as F, ...options}]. *)
Definition with_defaults (o : Options) : FullOptions :=
  mkFullOptions
    (match opt_args o with Some a => a | None => [] end)
    (match opt_flags o with Some f => f | None => no_flags end)
    (opt_run o)
    (opt_subcommands o).

Definition msg_both : string :=
  "command may have subcommands OR a run function but not both.".
Definition msg_neither : string :=
  "command must have subcommands OR a run function".

Definition present {A} (x : option A) : bool :=
  match x with Some _ => true | None => false end.

Definition runOrSubcommandsCheck (o : FullOptions) : Res unit :=
  if present (subcommands o) && present (run o)
  then Throw (JsError msg_both)
  else if negb (present (subcommands o)) && negb (present (run o))
  then Throw (JsError msg_neither)
  else Ok tt.

(** What [validateArgDefs] can be called with: its parameter type is
    not checked when the program runs.  The constructor hands it the
    options record itself, [this.options], not the [args] array of the
    record. *)
Inductive DefsValue : Type :=
| SpecArray (specs : list Arg)
| OptionsRecord (o : FullOptions).

(** What [for (const def of defs)] goes through.  An array yields its
    elements; a record made by an object literal has no iterator, and the
    loop throws a TypeError before its first round. *)
Definition iterate (defs : DefsValue) : Res (list Arg) :=
  match defs with
  | SpecArray specs => Ok specs
  | OptionsRecord _ => Throw JsTypeError
  end.

(** [validateArgDefs] of [args.ts], as it runs on such a value. *)
Definition validateArgDefs_called_with (defs : DefsValue) : Res unit :=
  match iterate defs with
  | Ok specs => validateArgDefs specs
  | Throw e => Throw e
  end.

(** [new Command(options)]. *)
Definition new_Command (o : Options) : Res Command :=
  let this_options := with_defaults o in
  match runOrSubcommandsCheck this_options with
  | Throw e => Throw e
  | Ok _ =>
      match validateArgDefs_called_with (OptionsRecord this_options) with
      | Throw e => Throw e
      | Ok _ => Ok (mkCommand this_options)
      end
  end.

(** What [parse] of [./parse] resolves to. *)
Record ParseResult : Type := {
  p_args : list JsVal;
  p_flags : FlagValues;
  p_subcommand : option Command;
}.

Variable parse : FullOptions -> list JsVal -> IO ParseResult.
(** [new Context(this)]. *)
Variable new_Context : Command -> IO Context.

Section Exec.
(** [subcommand.exec], the call the body dispatches to. *)
Variable sub_exec : Command -> option (list JsVal) -> IO JsVal.

(** The [try] block of [exec]. *)
Definition exec_body (this : Command) (argv : list JsVal) : IO JsVal :=
  p <- parse (options this) argv ;;
  ctx <- new_Context this ;;
  match p_subcommand p with
  | Some subcommand =>
      result <- sub_exec subcommand (Some (p_args p)) ;;
      io_ret result
  | None =>
      match run (options this) with
      | Some run =>
          result <- run {| rp_args := p_args p;
                           rp_flags := p_flags p;
                           rp_ctx := ctx |} ;;
          io_ret result
      | None => io_ret JUndefined
      end
  end.

(** The [catch] block. *)
Definition exec_catch (err : Exn) : IO JsVal :=
  match err with
  | VersionSignal v => console_log (render v) ;;; io_ret JUndefined
  | _ => io_throw err
  end.

(** [async exec(argv = process.argv.slice(2))], one level. *)
Definition exec_with (this : Command) (argv : option (list JsVal)) : IO JsVal :=
  fun w =>
    let argv := match argv with
                | Some a => a
                | None => map JStr (drop 2 (process_argv w))
                end in
    try_catch (exec_body this argv) exec_catch w.
End Exec.

(** [exec], with the dispatch to subcommands unfolded at most [fuel]
    levels deep. *)
Fixpoint exec (fuel : nat) (this : Command) (argv : option (list JsVal)) : IO JsVal :=
  match fuel with
  | O => fun _ => None
  | S fuel' => exec_with (exec fuel') this argv
  end.

End Command.

Arguments mkFullOptions {Flags FlagValues Context Cmd}.
Arguments args {Flags FlagValues Context Cmd}.
Arguments flags {Flags FlagValues Context Cmd}.
Arguments run {Flags FlagValues Context Cmd}.
Arguments subcommands {Flags FlagValues Context Cmd}.
Arguments mkCommand {Flags FlagValues Context}.
Arguments options {Flags FlagValues Context}.
Arguments mkOptions {Flags FlagValues Context}.
Arguments opt_args {Flags FlagValues Context}.
Arguments opt_flags {Flags FlagValues Context}.
Arguments opt_run {Flags FlagValues Context}.
Arguments opt_subcommands {Flags FlagValues Context}.
Arguments with_defaults {Flags FlagValues Context}.
Arguments runOrSubcommandsCheck {Flags FlagValues Context}.
Arguments new_Command {Flags FlagValues Context}.
Arguments SpecArray {Flags FlagValues Context}.
Arguments OptionsRecord {Flags FlagValues Context}.
Arguments iterate {Flags FlagValues Context}.
Arguments validateArgDefs_called_with {Flags FlagValues Context}.
Arguments Build_RunParams {FlagValues Context}.
Arguments Build_ParseResult {Flags FlagValues Context}.
Arguments p_args {Flags FlagValues Context}.
Arguments p_flags {Flags FlagValues Context}.
Arguments p_subcommand {Flags FlagValues Context}.
Arguments exec_body {Flags FlagValues Context}.
Arguments exec_with {Flags FlagValues Context}.
Arguments exec {Flags FlagValues Context}.

(** The world after [console.log(line)]. *)
Definition logged (line : string) (w : World) : World :=
  mkWorld (heap w) (stdout w ++ [line]) (process_argv w).

(** The arguments [exec] works on: the ones given, or by default
    [process.argv.slice(2)]. *)
Definition argv_or_default (argv : option (list JsVal)) (w : World) : list JsVal :=
  match argv with
  | Some a => a
  | None => map JStr (drop 2 (process_argv w))
  end.

End Cmd.

(* ===================================================================== *)
(** ** The shapes of a definition list, in the specification's words *)
(* ===================================================================== *)

Module Shape.
Import Js Args.

(** The three kinds of spec: [RequiredArg], [OptionalArg] without [rest],
    and [RestArg = Arg & {rest: true, required: false}]. *)
Inductive Tag : Type := TRequired | TOptional | TRest.

(** The kind of a spec, read off its two flags.  A spec that sets both
    [required] and [rest] is none of the three. *)
Definition tag_of (a : Arg) : option Tag :=
  match required a, flag (rest a) with
  | true, false => Some TRequired
  | false, false => Some TOptional
  | false, true => Some TRest
  | true, true => None
  end.

Fixpoint tags_of (defs : list Arg) : option (list Tag) :=
  match defs with
  | [] => Some []
  | d :: defs' =>
      match tag_of d, tags_of defs' with
      | Some t, Some ts => Some (t :: ts)
      | _, _ => None
      end
  end.

(** Zero or more required, then zero or more optional, then at most one
    rest, and nothing after it. *)
Definition monotonic (ts : list Tag) : Prop :=
  exists k m r : nat,
    ts = replicate k TRequired ++ replicate m TOptional ++ replicate r TRest
    /\ (r <= 1)%nat.

Definition is_rest (a : Arg) : bool := flag (rest a).

(** The number of specs that are not rest slots. *)
Definition count_non_rest (defs : list Arg) : nat :=
  length (List.filter (fun a => negb (is_rest a)) defs).

Definition has_rest (defs : list Arg) : bool := existsb is_rest defs.

(** What the first loop of [validateArgs] does with one spec and the
    value in its slot, apart from storing the result: the choices check,
    then [parse]. *)
Definition parse_token (d : Arg) (input : JsVal) : Res JsVal :=
  match choices d with
  | Some c =>
      match resolve_choices c with
      | Throw e => Throw e
      | Ok cs =>
          if negb (includes cs input)
          then Throw (JsError (invalid_choice_message input cs))
          else parse d input
      end
  | None => parse d input
  end.

(** What the second loop computes for one spec: the value of its default
    supplier, [undefined] when it has none. *)
Definition default_value (d : Arg) : Res JsVal :=
  match default_ d with
  | Some supplier => supplier tt
  | None => Ok JUndefined
  end.

(** Steps 1 to 3 of the binder: lines 140 to 162 of [validateArgs], that
    is the function without [maxArgs] and its two final checks. *)
Definition fill (defs : list loc) (args : loc) : M unit :=
  bind (addIdToArgs defs) (fun _ =>
  bind (arr_contents args) (fun before =>
  bind (for_of (take (length before) defs) (bind_supplied args)) (fun _ =>
  bind (arr_contents args) (fun parsed =>
  for_of (drop (length parsed) defs) (fill_missing args))))).

(** The last position at which an object sits in a definition list. *)
Fixpoint last_index (r : loc) (defs : list loc) : option nat :=
  match defs with
  | [] => None
  | a :: defs' =>
      match last_index r defs' with
      | Some j => Some (S j)
      | None => if Nat.eqb r a then Some 0%nat else None
      end
  end.

(** The definition list as the validator sees it in a heap. *)
Definition specs_of (h : Heap) (defs : list loc) : list Arg :=
  map (objs h) defs.

(** The heap after one round of the second loop: [undefined] is
    skipped, any other value is stored at the spec's id. *)
Definition store_default (h : Heap) (args : loc) (i : Z) (v : JsVal) : Heap :=
  match v with
  | JUndefined => h
  | _ => write h args i v
  end.

(** The value the required-arguments filter reads for a spec: the
    element of the array at the spec's id. *)
Definition slot_value (h : Heap) (args : loc) (r : loc) : JsVal :=
  arr_get (arrs h args) (id_ (objs h r)).

End Shape.

(** Concrete heaps for the examples: the specs of a list sit at the
    addresses [0], [1], ... and the token array at array address [0]. *)
Module Samples.
Import Js Args Shape.

Definition heap_of (specs : list Arg) (tokens : list JsVal) : Heap :=
  mkHeap (fun r => nth r specs (optional_arg "unused"))
         (fun a => match a with O => tokens | S _ => [] end).

Definition addresses (specs : list Arg) : list loc := seq 0 (length specs).

(** [validateArgs] on such a heap, with nothing for [ctx]. *)
Definition run_binder (specs : list Arg) (tokens : list JsVal)
  : Heap * Res (ValidateResult unit) :=
  validateArgs tt (addresses specs) 0%nat (heap_of specs tokens).

Definition defs_abc : list Arg :=
  [required_arg "a"; optional_arg "b"; rest_arg "c"].
Definition defs_ba : list Arg :=
  [optional_arg "b"; required_arg "a"].
Definition defs_a_b : list Arg :=
  [required_arg "a"; optional_arg "b"].
Definition defs_a_rest : list Arg :=
  [required_arg "a"; rest_arg "b"].
Definition xyz : list JsVal := [JStr "x"; JStr "y"; JStr "z"].

(** A spec that sets both [required] and [rest]. *)
Definition required_and_rest : Arg :=
  mkArg (-1) (Some "both"%string) None true (Some true) None identity_parse None None.

(** A required spec whose parser reads the token [0] as the number. *)
Definition parse_count (v : JsVal) : Res JsVal :=
  match v with
  | JStr s => if String.eqb s "0" then Ok (JNum 0) else Ok (JNum 1)
  | _ => Ok (JNum 1)
  end.
Definition required_count : Arg :=
  arg_required arg_defaults identity_parse (Some "count"%string) None
               (mkOpts None (Some parse_count) None None None None).

(** [arg.required('a', {choices: ['a', 'b']})]. *)
Definition required_ab : Arg :=
  arg_required arg_defaults identity_parse (Some "a"%string) None
               (mkOpts None None (Some (ChoicesList ["a"; "b"]%string)) None None None).

(** [arg.optional('b', {default: 'd'})]. *)
Definition optional_d : Arg :=
  arg_optional arg_defaults identity_parse (Some "b"%string) None
               (mkOpts None None None (Some (DefaultValue (JStr "d"))) None None).

Definition defs_a_d : list Arg := [required_arg "a"; optional_d].

End Samples.

(** Concrete commands for the examples: no flags, nothing in the
    context, a parser that hands the tokens through, and handlers that
    return or throw. *)
Module CommandSamples.
Import Js Args Shape Samples Cmd.

Definition world0 : World := mkWorld (heap_of [] []) [] ["node"; "script"]%string.

Definition plain_parse (o : FullOptions unit unit unit) (argv : list JsVal)
  : IO (ParseResult unit unit unit) :=
  io_ret (Build_ParseResult argv tt None).

Definition version_1 : VersionInfo := {| rendered := "1.0.0" |}.

(** A flag parser that meets [--version]. *)
Definition version_parse (o : FullOptions unit unit unit) (argv : list JsVal)
  : IO (ParseResult unit unit unit) :=
  io_throw (VersionSignal version_1).

Definition plain_context (c : Command unit unit unit) : IO unit := io_ret tt.

Definition run_123 : RunFunc unit unit := fun _ => io_ret (JNum 123).
Definition run_version : RunFunc unit unit :=
  fun _ => io_throw (VersionSignal version_1).

Definition with_run (f : RunFunc unit unit) : Options unit unit unit :=
  mkOptions None None (Some f) None.
Definition with_both (f : RunFunc unit unit) : Options unit unit unit :=
  mkOptions None None (Some f) (Some []).
Definition with_neither : Options unit unit unit :=
  mkOptions None None None None.

Definition command_of (f : RunFunc unit unit) : Command unit unit unit :=
  mkCommand (with_defaults tt (with_run f)).

(** [new Command({subcommands: {}})]. *)
Definition with_subcommands : Options unit unit unit :=
  mkOptions None None None (Some []).

(** A parser that selects a subcommand. *)
Definition dispatch_parse (sub : Command unit unit unit)
           (o : FullOptions unit unit unit) (argv : list JsVal)
  : IO (ParseResult unit unit unit) :=
  io_ret (Build_ParseResult argv tt (Some sub)).

(** A flag parser that refuses a flag. *)
Definition failing_parse (o : FullOptions unit unit unit) (argv : list JsVal)
  : IO (ParseResult unit unit unit) :=
  io_throw (JsError "unknown flag").

(** An [exec] of a subcommand that lets the version signal out. *)
Definition leaking_exec (c : Command unit unit unit)
           (argv : option (list JsVal)) : IO JsVal :=
  io_throw (VersionSignal version_1).

End CommandSamples.

(* ===================================================================== *)
(** ** args.ts: call shapes, [extend], [toString] *)
(* ===================================================================== *)

Module Overloads.
Import Js Args Shape.

(** An argument of a builder call: absent, a string, or an options bag
    ([typeof x === 'object']). *)
Inductive Param : Type :=
| PUndefined
| PString (s : string)
| PObject (o : ArgOpts).

Definition as_string (p : Param) : option string :=
  match p with
  | PString s => Some s
  | _ => None
  end.

Definition of_string (n : option string) : Param :=
  match n with
  | Some s => PString s
  | None => PUndefined
  end.

(** [getParams(name, description, options)]. *)
Definition getParams (name description : Param) (options : option ArgOpts)
  : option string * option string * ArgOpts :=
  match name with
  | PObject o => (None, None, o)
  | _ =>
      match description with
      | PObject o => (as_string name, None, o)
      | _ => (as_string name, as_string description,
              match options with Some o => o | None => no_opts end)
      end
  end.

(** [options: ArgOpts = {}] in a parameter list. *)
Definition or_empty (options : option ArgOpts) : ArgOpts :=
  match options with Some o => o | None => no_opts end.

Section Calls.
Variable defaultOptions : ArgOpts.
Variable defaultParse : JsVal -> Res JsVal.

(** The builder called as a function, [arg(name?, description?, options?)]. *)
Definition call (name description : Param) (options : option ArgOpts) : Arg :=
  let '(n, d, o) := getParams name description (Some (or_empty options)) in
  arg_ defaultOptions defaultParse n d o.

(** [arg.required], [arg.optional] and [arg.rest]: normalise, then call
    the builder with the name and one options bag. *)
Definition call_required (name description : Param) (options : option ArgOpts) : Arg :=
  let '(n, d, o) := getParams name description (Some (or_empty options)) in
  call (of_string n) (PObject (with_tag defaultOptions d o true None)) None.

Definition call_optional (name description : Param) (options : option ArgOpts) : Arg :=
  let '(n, d, o) := getParams name description (Some (or_empty options)) in
  call (of_string n) (PObject (with_tag defaultOptions d o false None)) None.

Definition call_rest (name description : Param) (options : option ArgOpts) : Arg :=
  let '(n, d, o) := getParams name description (Some (or_empty options)) in
  call (of_string n) (PObject (with_tag defaultOptions d o false (Some true))) None.

(** [arg.extend(options)]: the default options of the new builder. *)
Definition extend (options : option ArgOpts) : ArgOpts :=
  spread_opts defaultOptions (or_empty options).
End Calls.

(** One call of an entry point, by the kind of spec it builds. *)
Record BuilderCall : Type := mkCall {
  kind : Tag;
  call_name : Param;
  call_description : Param;
  call_options : option ArgOpts;
}.

Definition build (defaultOptions : ArgOpts) (defaultParse : JsVal -> Res JsVal)
           (c : BuilderCall) : Arg :=
  match kind c with
  | TRequired => call_required defaultOptions defaultParse
                   (call_name c) (call_description c) (call_options c)
  | TOptional => call_optional defaultOptions defaultParse
                   (call_name c) (call_description c) (call_options c)
  | TRest => call_rest defaultOptions defaultParse
               (call_name c) (call_description c) (call_options c)
  end.

(** The options bag a call ends up with, and whether it and the
    builder's defaults stay within [interface ArgOpts], which has no
    [rest] key. *)
Definition bag (c : BuilderCall) : ArgOpts :=
  snd (getParams (call_name c) (call_description c)
                 (Some (or_empty (call_options c)))).

Definition no_rest_key (o : ArgOpts) : Prop := o_rest o = None.

Section Display.
(** [String.prototype.toUpperCase]. *)
Variable toUpperCase : string -> string.

(** The [toString] method of a spec; [usage] is [settings.usage], false
    when no settings are given. *)
Definition toString (this : Arg) (usage : bool) : string :=
  let s := EmptyString in
  if flag (hidden this) then s
  else
    let s := match name this with
             | Some n => if negb (String.eqb n "") then (s ++ toUpperCase n)%string else s
             | None => s
             end in
    if negb usage then s
    else
      let s := ("<" ++ (if negb (String.eqb s "") then s else "UNKNOWN ARGUMENT")
                    ++ ">")%string in
      if negb (required this) then ("[" ++ s ++ "]")%string else s.
End Display.

(** The label a visible spec is shown with in a usage string: its
    upper-cased name, or the placeholder when that is empty. *)
Definition label (toUpperCase : string -> string) (a : Arg) : string :=
  match name a with
  | Some n =>
      if String.eqb n "" then "UNKNOWN ARGUMENT"
      else if String.eqb (toUpperCase n) "" then "UNKNOWN ARGUMENT"
      else toUpperCase n
  | None => "UNKNOWN ARGUMENT"
  end.

(** The flags of a definition list never step back: nothing follows a
    spec with [rest], and no required spec follows one that is not
    required. *)
Definition ordered (defs : list Arg) : Prop :=
  forall (i j : nat) (a b : Arg),
    (i < j)%nat -> defs !! i = Some a -> defs !! j = Some b ->
    flag (rest a) = false /\ (required a = false -> required b = false).

End Overloads.

(** A command with one subcommand, and a parser that selects the first
    subcommand of a command that has some. *)
Module DispatchSamples.
Import Js Args Shape Samples Cmd CommandSamples.

Definition parent_of (child : Command unit unit unit) : Command unit unit unit :=
  mkCommand (mkFullOptions [] tt None (Some [("child"%string, child)])).

Definition routing_parse (o : FullOptions unit unit unit) (argv : list JsVal)
  : IO (ParseResult unit unit unit) :=
  match subcommands o with
  | Some ((_, child) :: _) => io_ret (Build_ParseResult argv tt (Some child))
  | _ => io_ret (Build_ParseResult argv tt None)
  end.

Definition run_fails : RunFunc unit unit := fun _ => io_throw (JsError "boom").

(** A command with subcommands of which the parser selects none. *)
Definition childless : Command unit unit unit :=
  mkCommand (mkFullOptions [] tt None (Some [])).

End DispatchSamples.

(* ===================================================================== *)
(** ** The definition validator *)
(* ===================================================================== *)

Module ValidatorFacts.
Import Js Args Shape Samples.

(** On a [boolean | undefined] field, [x === true] and the truthiness of
    [x] agree. *)
Lemma is_true_flag (b : option bool) : is_true b = flag b.
Proof. reflexivity. Qed.

Lemma validate_from_rest (defs : list Arg) :
  validate_from SRest defs = Ok tt <-> defs = [].
Proof.
  destruct defs; simpl; split; intros H; try reflexivity; discriminate.
Qed.

(** The validator either accepts or throws one of its two messages. *)
Lemma validate_from_outcome (defs : list Arg) :
  forall st,
    validate_from st defs = Ok tt \/
    exists msg, validate_from st defs = Throw (JsError msg)
                /\ (msg = msg_required_after_optional \/ msg = msg_rest_last).
Proof.
  induction defs as [|d defs IH]; intros st; simpl.
  - left; reflexivity.
  - destruct st.
    + destruct (flag (rest d)); [apply IH|].
      destruct (negb (required d)); apply IH.
    + destruct (required d).
      * right; eexists; split; [reflexivity|left; reflexivity].
      * destruct (is_true (rest d)); apply IH.
    + right; eexists; split; [reflexivity|right; reflexivity].
Qed.

Lemma tags_of_cons (d : Arg) (defs : list Arg) (ts : list Tag) :
  tags_of (d :: defs) = Some ts ->
  exists t ts', ts = t :: ts' /\ tag_of d = Some t /\ tags_of defs = Some ts'.
Proof.
  simpl. destruct (tag_of d) as [t|]; [|discriminate].
  destruct (tags_of defs) as [ts'|]; [|discriminate].
  intros [= <-]. eauto.
Qed.

Lemma tags_of_nil_inv (defs : list Arg) :
  tags_of defs = Some [] -> defs = [].
Proof.
  destruct defs as [|d defs]; [reflexivity|].
  intros H. apply tags_of_cons in H as (t & ts' & Hts & _). discriminate.
Qed.

Lemma tag_of_flags (d : Arg) (t : Tag) :
  tag_of d = Some t ->
  required d = (match t with TRequired => true | _ => false end) /\
  flag (rest d) = (match t with TRest => true | _ => false end).
Proof.
  unfold tag_of. destruct (required d), (flag (rest d)); intros [= <-]; auto.
Qed.

Ltac use_tag H :=
  let Hr := fresh "Hreq" in
  let Hf := fresh "Hflag" in
  apply tag_of_flags in H as [Hr Hf]; simpl in Hr, Hf;
  rewrite ?is_true_flag; try rewrite Hr; try rewrite Hf; simpl.

(** From [optional] on: optional specs, then at most one rest. *)
Lemma accepted_from_optional (m r : nat) :
  (r <= 1)%nat ->
  forall defs,
    tags_of defs = Some (replicate m TOptional ++ replicate r TRest) ->
    validate_from SOptional defs = Ok tt.
Proof.
  intros Hr. induction m as [|m IH]; intros defs Hts; simpl in Hts.
  - destruct r as [|[|r]]; [| |lia]; simpl in Hts.
    + apply tags_of_nil_inv in Hts as ->. reflexivity.
    + destruct defs as [|d defs]; [discriminate|].
      apply tags_of_cons in Hts as (t & ts' & [= <- <-] & Ht & Hts').
      apply tags_of_nil_inv in Hts' as ->.
      simpl. use_tag Ht. reflexivity.
  - destruct defs as [|d defs]; [discriminate|].
    apply tags_of_cons in Hts as (t & ts' & [= <- <-] & Ht & Hts').
    simpl. use_tag Ht. apply IH, Hts'.
Qed.

Lemma accepted_from_required (k m r : nat) :
  (r <= 1)%nat ->
  forall defs,
    tags_of defs
    = Some (replicate k TRequired ++ replicate m TOptional ++ replicate r TRest) ->
    validate_from SRequired defs = Ok tt.
Proof.
  intros Hr. induction k as [|k IH]; intros defs Hts; simpl in Hts.
  - destruct m as [|m]; simpl in Hts.
    + destruct r as [|[|r]]; [| |lia]; simpl in Hts.
      * apply tags_of_nil_inv in Hts as ->. reflexivity.
      * destruct defs as [|d defs]; [discriminate|].
        apply tags_of_cons in Hts as (t & ts' & [= <- <-] & Ht & Hts').
        apply tags_of_nil_inv in Hts' as ->.
        simpl. use_tag Ht. reflexivity.
    + destruct defs as [|d defs]; [discriminate|].
      apply tags_of_cons in Hts as (t & ts' & [= <- <-] & Ht & Hts').
      simpl. use_tag Ht. apply (accepted_from_optional m r Hr), Hts'.
  - destruct defs as [|d defs]; [discriminate|].
    apply tags_of_cons in Hts as (t & ts' & [= <- <-] & Ht & Hts').
    simpl. use_tag Ht. apply IH, Hts'.
Qed.

Lemma shape_from_optional (defs : list Arg) :
  forall ts,
    tags_of defs = Some ts ->
    validate_from SOptional defs = Ok tt ->
    exists m r, ts = replicate m TOptional ++ replicate r TRest /\ (r <= 1)%nat.
Proof.
  induction defs as [|d defs IH]; intros ts Hts Hok.
  - injection Hts as <-. exists 0%nat, 0%nat. split; [reflexivity|lia].
  - apply tags_of_cons in Hts as (t & ts' & -> & Ht & Hts').
    simpl in Hok. pose proof (tag_of_flags _ _ Ht) as [Hreq Hflag].
    rewrite Hreq, is_true_flag, Hflag in Hok.
    destruct t; try discriminate.
    + destruct (IH _ Hts' Hok) as (m & r & -> & Hr).
      exists (S m), r. split; [reflexivity|exact Hr].
    + apply validate_from_rest in Hok as ->. injection Hts' as <-.
      exists 0%nat, 1%nat. split; [reflexivity|lia].
Qed.

Lemma shape_from_required (defs : list Arg) :
  forall ts,
    tags_of defs = Some ts ->
    validate_from SRequired defs = Ok tt ->
    monotonic ts.
Proof.
  induction defs as [|d defs IH]; intros ts Hts Hok.
  - injection Hts as <-. exists 0%nat, 0%nat, 0%nat. split; [reflexivity|lia].
  - apply tags_of_cons in Hts as (t & ts' & -> & Ht & Hts').
    simpl in Hok. pose proof (tag_of_flags _ _ Ht) as [Hreq Hflag].
    rewrite Hreq, Hflag in Hok.
    destruct t; simpl in Hok.
    + destruct (IH _ Hts' Hok) as (k & m & r & -> & Hr).
      exists (S k), m, r. split; [reflexivity|exact Hr].
    + destruct (shape_from_optional _ _ Hts' Hok) as (m & r & -> & Hr).
      exists 0%nat, (S m), r. split; [reflexivity|exact Hr].
    + apply validate_from_rest in Hok as ->. injection Hts' as <-.
      exists 0%nat, 0%nat, 1%nat. split; [reflexivity|lia].
Qed.

(** C1. A definition list whose specs are tagged required, optional or
    rest passes [validateArgDefs] when its tags run required*, optional*,
    at most one rest; when they do not, it throws the plain [Error] of
    one of the validator's two messages.  Only the two flags of a spec
    are looked at: the statement holds for all names, parsers, choices
    and defaults. *)
Theorem validateArgDefs_monotonic (defs : list Arg) (ts : list Tag) :
  tags_of defs = Some ts ->
  (monotonic ts -> validateArgDefs defs = Ok tt) /\
  (~ monotonic ts ->
   exists msg, validateArgDefs defs = Throw (JsError msg)
               /\ (msg = msg_required_after_optional \/ msg = msg_rest_last)).
Proof.
  intros Hts. split.
  - intros (k & m & r & -> & Hr).
    exact (accepted_from_required k m r Hr defs Hts).
  - intros Hnot.
    destruct (validate_from_outcome defs SRequired) as [Hok | Hthrow].
    + exfalso. apply Hnot. exact (shape_from_required defs ts Hts Hok).
    + exact Hthrow.
Qed.

Lemma not_monotonic_optional_required : ~ monotonic [TOptional; TRequired].
Proof.
  intros (k & m & r & H & Hr).
  destruct k as [|k]; simpl in H; [|discriminate].
  destruct m as [|m]; simpl in H.
  - destruct r as [|r]; simpl in H; discriminate.
  - injection H as H. destruct m as [|m]; simpl in H.
    + destruct r as [|r]; simpl in H; discriminate.
    + discriminate.
Qed.

Lemma validateArgDefs_monotonic_witness :
  (tags_of defs_abc = Some [TRequired; TOptional; TRest]
   /\ validateArgDefs defs_abc = Ok tt)
  /\ (tags_of defs_ba = Some [TOptional; TRequired]
      /\ exists msg, validateArgDefs defs_ba = Throw (JsError msg)
                     /\ (msg = msg_required_after_optional \/ msg = msg_rest_last)).
Proof.
  split.
  - split; [reflexivity|].
    apply (validateArgDefs_monotonic defs_abc [TRequired; TOptional; TRest]);
      [reflexivity|].
    exists 1%nat, 1%nat, 1%nat. split; [reflexivity|lia].
  - split; [reflexivity|].
    apply (validateArgDefs_monotonic defs_ba [TOptional; TRequired]);
      [reflexivity|].
    exact not_monotonic_optional_required.
Defined.

(** A spec that sets both [required] and [rest] has no tag; the validator
    lets it close a list of required specs and refuses it after an
    optional one. *)
Example required_rest_spec :
  tag_of required_and_rest = None
  /\ validateArgDefs [required_arg "a"; required_and_rest] = Ok tt
  /\ validateArgDefs [optional_arg "b"; required_and_rest]
     = Throw (JsError msg_required_after_optional).
Proof. repeat split. Qed.

Lemma fold_numOptional (defs : list Arg) :
  forall st acc,
    validate_from st defs = Ok tt ->
    fold_left (fun total arg => if flag (rest arg) then -1 else total + 1) defs acc
    = if has_rest defs then -1 else acc + Z.of_nat (count_non_rest defs).
Proof.
  induction defs as [|d defs IH]; intros st acc Hok.
  - simpl. unfold count_non_rest. simpl. lia.
  - simpl. unfold has_rest, count_non_rest, is_rest in *. simpl.
    destruct (flag (rest d)) eqn:Hflag; simpl.
    + assert (defs = []) as ->.
      { destruct st; simpl in Hok.
        - rewrite Hflag in Hok. apply validate_from_rest, Hok.
        - destruct (required d); [discriminate|].
          rewrite is_true_flag, Hflag in Hok. apply validate_from_rest, Hok.
        - discriminate. }
      reflexivity.
    + assert (exists st', validate_from st' defs = Ok tt) as [st' Hok'].
      { destruct st; simpl in Hok.
        - rewrite Hflag in Hok. destruct (negb (required d)); eauto.
        - destruct (required d); [discriminate|].
          rewrite is_true_flag, Hflag in Hok. eauto.
        - discriminate. }
      rewrite (IH st' (acc + 1) Hok').
      destruct (existsb _ defs); [reflexivity|]. lia.
Qed.

(** C5. For a definition list that passes validation, the maximum that
    [numOptionalArgs] computes is the number of non-rest specs when no
    spec is a rest slot, and is [-1] exactly when one is. *)
Theorem numOptionalArgs_validated (defs : list Arg) :
  validateArgDefs defs = Ok tt ->
  numOptionalArgs defs
  = (if has_rest defs then -1 else Z.of_nat (count_non_rest defs))
  /\ (numOptionalArgs defs = -1 <-> has_rest defs = true).
Proof.
  intros Hok. unfold numOptionalArgs.
  rewrite (fold_numOptional defs SRequired 0 Hok).
  split.
  - destruct (has_rest defs); [reflexivity|lia].
  - destruct (has_rest defs); split; intros H; try reflexivity; try discriminate.
    lia.
Qed.

Lemma numOptionalArgs_validated_witness :
  validateArgDefs defs_abc = Ok tt
  /\ numOptionalArgs defs_abc = -1
  /\ validateArgDefs defs_a_b = Ok tt
  /\ numOptionalArgs defs_a_b = 2.
Proof.
  split; [reflexivity|]. split.
  - apply (numOptionalArgs_validated defs_abc); reflexivity.
  - split; [reflexivity|].
    apply (numOptionalArgs_validated defs_a_b); reflexivity.
Defined.

(** Without validation the fold can report a bound although a rest slot
    is present. *)
Example numOptionalArgs_unvalidated :
  numOptionalArgs [rest_arg "r"; optional_arg "b"] = 0.
Proof. reflexivity. Qed.

End ValidatorFacts.

(* ===================================================================== *)
(** ** The binder *)
(* ===================================================================== *)

Module BinderFacts.
Import Js Args Shape Samples ValidatorFacts.

(** *** Arrays *)

Lemma arr_get_set (a : list JsVal) (i j : Z) (v : JsVal) :
  0 <= i ->
  arr_get (arr_set a i v) j = if j =? i then v else arr_get a j.
Proof.
  intros Hi. unfold arr_get, arr_set.
  destruct (i <? 0) eqn:Hi0; [lia|].
  destruct (j <? 0) eqn:Hj0.
  { destruct (j =? i) eqn:E; [lia|reflexivity]. }
  destruct (Nat.ltb_spec (Z.to_nat i) (length a)) as [Hlt|Hge].
  - destruct (j =? i) eqn:E.
    + assert (j = i) as -> by lia.
      rewrite list_lookup_insert_eq by exact Hlt. reflexivity.
    + rewrite list_lookup_insert_ne by lia. reflexivity.
  - destruct (j =? i) eqn:E.
    + assert (j = i) as -> by lia.
      rewrite lookup_app_r by lia.
      rewrite lookup_app_r by (rewrite length_replicate; lia).
      rewrite length_replicate.
      replace (Z.to_nat i - length a - (Z.to_nat i - length a))%nat with 0%nat by lia.
      reflexivity.
    + destruct (Nat.lt_ge_cases (Z.to_nat j) (length a)) as [Hjl|Hjg].
      * rewrite lookup_app_l by exact Hjl. reflexivity.
      * rewrite (lookup_ge_None_2 a) by exact Hjg.
        rewrite lookup_app_r by exact Hjg.
        destruct (Nat.lt_ge_cases (Z.to_nat j - length a) (Z.to_nat i - length a))
          as [Hin|Hout].
        -- rewrite lookup_app_l by (rewrite length_replicate; exact Hin).
           rewrite lookup_replicate_2 by exact Hin. reflexivity.
        -- rewrite lookup_app_r by (rewrite length_replicate; exact Hout).
           rewrite length_replicate.
           destruct (Z.to_nat j - length a - (Z.to_nat i - length a))%nat eqn:E2;
             [lia|reflexivity].
Qed.

Lemma arr_set_length (a : list JsVal) (i : Z) (v : JsVal) :
  0 <= i ->
  length (arr_set a i v) = Nat.max (length a) (S (Z.to_nat i)).
Proof.
  intros Hi. unfold arr_set.
  destruct (i <? 0) eqn:Hi0; [lia|].
  destruct (Nat.ltb_spec (Z.to_nat i) (length a)) as [Hlt|Hge].
  - rewrite length_insert. lia.
  - rewrite !length_app, length_replicate. simpl. lia.
Qed.

Lemma arr_get_beyond (a : list JsVal) (i : Z) :
  Z.of_nat (length a) <= i -> arr_get a i = JUndefined.
Proof.
  intros H. unfold arr_get. destruct (i <? 0); [reflexivity|].
  rewrite lookup_ge_None_2 by lia. reflexivity.
Qed.

Lemma arr_get_lookup (a : list JsVal) (i : nat) (v : JsVal) :
  a !! i = Some v -> arr_get a (Z.of_nat i) = v.
Proof.
  intros H. unfold arr_get.
  destruct (Z.ltb_spec (Z.of_nat i) 0) as [E|E]; [lia|].
  rewrite Nat2Z.id, H. reflexivity.
Qed.

(** A write below [n] leaves the elements from [n] on as they are. *)
Lemma arr_set_drop (a : list JsVal) (i : Z) (v : JsVal) (n : nat) :
  0 <= i < Z.of_nat n -> (n <= length a)%nat ->
  drop n (arr_set a i v) = drop n a.
Proof.
  intros Hi Hn. unfold arr_set.
  destruct (i <? 0) eqn:Hi0; [lia|].
  destruct (Nat.ltb_spec (Z.to_nat i) (length a)) as [Hlt|Hge]; [|lia].
  apply drop_insert_lt. lia.
Qed.

(** *** The two loop bodies, as functions of the heap *)

Lemma bind_supplied_eq (args def : loc) (h : Heap) :
  bind_supplied args def h
  = match parse_token (objs h def)
                      (arr_get (arrs h args) (id_ (objs h def))) with
    | Ok v => (write h args (id_ (objs h def)) v, Ok tt)
    | Throw e => (h, Throw e)
    end.
Proof.
  unfold bind_supplied, parse_token, bind, read_def, arr_read, arr_write, lift.
  simpl.
  destruct (choices (objs h def)) as [c|]; simpl.
  - destruct (resolve_choices c) as [cs|e]; simpl; [|reflexivity].
    destruct (includes cs _); simpl; [|reflexivity].
    destruct (parse (objs h def) _); reflexivity.
  - destruct (parse (objs h def) _); reflexivity.
Qed.

Lemma fill_missing_eq (args def : loc) (h : Heap) :
  fill_missing args def h
  = match default_value (objs h def) with
    | Ok JUndefined => (h, Ok tt)
    | Ok v => (write h args (id_ (objs h def)) v, Ok tt)
    | Throw e => (h, Throw e)
    end.
Proof.
  unfold fill_missing, default_value, bind, read_def, arr_write, lift. simpl.
  destruct (default_ (objs h def)) as [f|]; simpl; [|reflexivity].
  destruct (f tt) as [v|e]; [|reflexivity].
  destruct v; reflexivity.
Qed.

Lemma write_objs (h : Heap) (args : loc) (i : Z) (v : JsVal) :
  objs (write h args i v) = objs h.
Proof. reflexivity. Qed.

Lemma write_arrs_same (h : Heap) (args : loc) (i : Z) (v : JsVal) :
  arrs (write h args i v) args = arr_set (arrs h args) i v.
Proof. unfold write. simpl. rewrite Nat.eqb_refl. reflexivity. Qed.

Lemma write_arrs_other (h : Heap) (args a : loc) (i : Z) (v : JsVal) :
  a <> args -> arrs (write h args i v) a = arrs h a.
Proof.
  intros Hne. unfold write. simpl.
  destruct (Nat.eqb_spec a args); [contradiction|reflexivity].
Qed.

Lemma for_of_cons {A} (x : A) (l : list A) (body : A -> M unit) (h : Heap) :
  for_of (x :: l) body h
  = match body x h with
    | (h', Ok _) => for_of l body h'
    | (h', Throw e) => (h', Throw e)
    end.
Proof. reflexivity. Qed.

Lemma for_of_nil {A} (body : A -> M unit) (h : Heap) :
  for_of [] body h = (h, Ok tt).
Proof. reflexivity. Qed.

(** Both loops leave the spec objects and every other array alone,
    whether they finish or throw. *)
Lemma for_of_bind_supplied_frame (args : loc) (l : list loc) :
  forall h,
    objs (fst (for_of l (bind_supplied args) h)) = objs h
    /\ forall a, a <> args ->
                 arrs (fst (for_of l (bind_supplied args) h)) a = arrs h a.
Proof.
  induction l as [|r l IH]; intros h.
  - split; [reflexivity|intros; reflexivity].
  - rewrite for_of_cons, bind_supplied_eq.
    destruct (parse_token _ _) as [v|e].
    + destruct (IH (write h args (id_ (objs h r)) v)) as [Ho Ha].
      split; [rewrite Ho; reflexivity|].
      intros a Hne. rewrite (Ha a Hne). apply write_arrs_other, Hne.
    + split; [reflexivity|intros; reflexivity].
Qed.

Lemma for_of_fill_missing_frame (args : loc) (l : list loc) :
  forall h,
    objs (fst (for_of l (fill_missing args) h)) = objs h
    /\ forall a, a <> args ->
                 arrs (fst (for_of l (fill_missing args) h)) a = arrs h a.
Proof.
  induction l as [|r l IH]; intros h.
  - split; [reflexivity|intros; reflexivity].
  - rewrite for_of_cons, fill_missing_eq.
    destruct (default_value _) as [v|e].
    + assert (forall h', objs h' = objs h ->
                (forall a, a <> args -> arrs h' a = arrs h a) ->
                objs (fst (for_of l (fill_missing args) h')) = objs h
                /\ forall a, a <> args ->
                     arrs (fst (for_of l (fill_missing args) h')) a = arrs h a)
        as Hstep.
      { intros h' Ho Ha. destruct (IH h') as [Ho' Ha'].
        split; [rewrite Ho'; exact Ho|].
        intros a Hne. rewrite (Ha' a Hne). apply Ha, Hne. }
      destruct v;
        try (apply Hstep; [reflexivity|intros a Hne; apply write_arrs_other, Hne]).
      apply Hstep; [reflexivity|intros; reflexivity].
    + split; [reflexivity|intros; reflexivity].
Qed.

(** *** Stamping the ids *)

Lemma set_id_set_id (a : Arg) (i j : Z) : set_id (set_id a i) j = set_id a j.
Proof. reflexivity. Qed.

Lemma addIdToArgs_from_spec (defs : list loc) :
  forall i h,
    snd (addIdToArgs_from i defs h) = Ok tt
    /\ arrs (fst (addIdToArgs_from i defs h)) = arrs h
    /\ forall r,
         objs (fst (addIdToArgs_from i defs h)) r
         = match last_index r defs with
           | Some j => set_id (objs h r) (Z.of_nat (i + j))
           | None => objs h r
           end.
Proof.
  induction defs as [|a defs IH]; intros i h; simpl.
  - repeat split.
  - unfold bind, write_id at 1. simpl.
    match goal with |- context [addIdToArgs_from (S i) defs ?h1] =>
      destruct (IH (S i) h1) as (Hres & Harr & Hobj) end.
    split; [exact Hres|]. split; [rewrite Harr; reflexivity|].
    intros r. rewrite Hobj. simpl.
    destruct (last_index r defs) as [j|].
    + destruct (Nat.eqb r a); unfold set_id; simpl; f_equal; lia.
    + destruct (Nat.eqb r a); [|reflexivity].
      unfold set_id; simpl; f_equal; lia.
Qed.

Lemma last_index_lookup (r : loc) (defs : list loc) (j : nat) :
  last_index r defs = Some j -> defs !! j = Some r.
Proof.
  revert j. induction defs as [|a defs IH]; intros j; simpl; [discriminate|].
  destruct (last_index r defs) as [j'|].
  - intros [= <-]. simpl. apply IH. reflexivity.
  - destruct (Nat.eqb_spec r a) as [->|]; [|discriminate].
    intros [= <-]. reflexivity.
Qed.

Lemma last_index_elem (r : loc) (defs : list loc) :
  In r defs -> exists j, last_index r defs = Some j.
Proof.
  induction defs as [|a defs IH]; simpl; [contradiction|].
  intros [->|Hin].
  - destruct (last_index r defs); [eauto|]. rewrite Nat.eqb_refl. eauto.
  - destruct (IH Hin) as [j ->]. eauto.
Qed.

Lemma last_index_not_elem (r : loc) (defs : list loc) :
  ~ In r defs -> last_index r defs = None.
Proof.
  induction defs as [|a defs IH]; simpl; [reflexivity|].
  intros Hnot. rewrite IH by tauto.
  destruct (Nat.eqb_spec r a); [|reflexivity]. exfalso. apply Hnot. left. congruence.
Qed.

(** Without repetition the last position is the position. *)
Lemma last_index_NoDup (defs : list loc) (i : nat) (r : loc) :
  List.NoDup defs -> defs !! i = Some r -> last_index r defs = Some i.
Proof.
  intros Hnd. revert i. induction Hnd as [|a defs Hnotin Hnd IH]; intros i Hi.
  - discriminate.
  - simpl. destruct i as [|i]; simpl in Hi.
    + injection Hi as ->. rewrite (last_index_not_elem r defs Hnotin).
      rewrite Nat.eqb_refl. reflexivity.
    + rewrite (IH i Hi). reflexivity.
Qed.

Lemma addIdToArgs_rest (defs : list loc) (h : Heap) (r : loc) :
  rest (objs (fst (addIdToArgs defs h)) r) = rest (objs h r)
  /\ required (objs (fst (addIdToArgs defs h)) r) = required (objs h r)
  /\ parse_token (objs (fst (addIdToArgs defs h)) r) = parse_token (objs h r)
  /\ default_value (objs (fst (addIdToArgs defs h)) r) = default_value (objs h r).
Proof.
  destruct (addIdToArgs_from_spec defs 0 h) as (_ & _ & Hobj).
  unfold addIdToArgs. rewrite Hobj.
  destruct (last_index r defs); repeat split; reflexivity.
Qed.

Lemma numOptionalArgs_flags (l1 l2 : list Arg) :
  map rest l1 = map rest l2 -> numOptionalArgs l1 = numOptionalArgs l2.
Proof.
  unfold numOptionalArgs. generalize 0.
  revert l2. induction l1 as [|a l1 IH]; intros [|b l2] acc H;
    try discriminate; [reflexivity|].
  simpl in *. injection H as Hab Hl. rewrite Hab. apply IH, Hl.
Qed.

Lemma numOptionalArgs_stamped (defs : list loc) (h : Heap) :
  numOptionalArgs (specs_of (fst (addIdToArgs defs h)) defs)
  = numOptionalArgs (specs_of h defs).
Proof.
  apply numOptionalArgs_flags. unfold specs_of. rewrite !map_map.
  apply map_ext. intros r. apply addIdToArgs_rest.
Qed.

(** [validateArgs] is [fill] followed by the two checks; the checks do
    not touch the heap. *)
Lemma validateArgs_fill {Ctx C : Type} (ctx : Ctx) (defs : list loc)
      (args : loc) (h0 : Heap) :
  @validateArgs Ctx C ctx defs args h0
  = match fill defs args h0 with
    | (h3, Throw e) => (h3, Throw e)
    | (h3, Ok _) =>
        let maxArgs := numOptionalArgs (specs_of h0 defs) in
        let missing := missingRequired h3 defs args in
        if negb (length missing =? 0)%nat
        then (h3, Throw (RequiredArgsError missing))
        else if negb (maxArgs =? -1)
                && (Z.of_nat (length (arrs h3 args)) >? maxArgs)
        then (h3, Throw (UnexpectedArgsError (slice_from (arrs h3 args) maxArgs)))
        else (h3, Ok {| subcommand := None |})
    end.
Proof.
  pose proof (numOptionalArgs_stamped defs h0) as Hmax.
  destruct (addIdToArgs_from_spec defs 0 h0) as (Hres & _ & _).
  unfold validateArgs, fill, bind, arr_contents, throw, ret.
  unfold specs_of in Hmax. unfold addIdToArgs in *.
  destruct (addIdToArgs_from 0 defs h0) as [h1 r1]. simpl in Hres, Hmax.
  subst r1. rewrite Hmax.
  destruct (for_of (take _ defs) _ h1) as [h2 [[]|e]]; [|reflexivity].
  destruct (for_of (drop _ defs) _ h2) as [h3 [[]|e]]; [|reflexivity].
  destruct (negb (length (missingRequired h3 defs args) =? 0)%nat); [reflexivity|].
  unfold specs_of.
  destruct (negb (numOptionalArgs (map (objs h0) defs) =? -1)
            && (Z.of_nat (length (arrs h3 args)) >? numOptionalArgs (map (objs h0) defs)));
    reflexivity.
Qed.

Lemma fill_unfold (defs : list loc) (args : loc) (h0 : Heap) :
  fill defs args h0
  = let h1 := fst (addIdToArgs defs h0) in
    match for_of (take (length (arrs h1 args)) defs) (bind_supplied args) h1 with
    | (h2, Throw e) => (h2, Throw e)
    | (h2, Ok _) =>
        for_of (drop (length (arrs h2 args)) defs) (fill_missing args) h2
    end.
Proof.
  destruct (addIdToArgs_from_spec defs 0 h0) as (Hres & _ & _).
  unfold fill, bind, arr_contents, addIdToArgs in *.
  destruct (addIdToArgs_from 0 defs h0) as [h1 r1]. simpl in *. subst r1.
  reflexivity.
Qed.

(** The heap [fill] leaves: the spec objects as [addIdToArgs] stamped
    them, every array but the caller's untouched. *)
Lemma fill_frame (defs : list loc) (args : loc) (h0 : Heap) :
  objs (fst (fill defs args h0)) = objs (fst (addIdToArgs defs h0))
  /\ forall a, a <> args -> arrs (fst (fill defs args h0)) a = arrs h0 a.
Proof.
  destruct (addIdToArgs_from_spec defs 0 h0) as (_ & Harr & _).
  fold (addIdToArgs defs h0) in Harr.
  rewrite fill_unfold. cbv zeta.
  set (h1 := fst (addIdToArgs defs h0)) in *.
  set (l1 := take (length (arrs h1 args)) defs).
  destruct (for_of_bind_supplied_frame args l1 h1) as [Ho1 Ha1].
  destruct (for_of l1 (bind_supplied args) h1) as [h2 [[]|e]]; simpl in Ho1, Ha1.
  - set (l2 := drop (length (arrs h2 args)) defs).
    destruct (for_of_fill_missing_frame args l2 h2) as [Ho2 Ha2].
    split; [rewrite Ho2; exact Ho1|].
    intros a Hne. rewrite (Ha2 a Hne), (Ha1 a Hne), Harr. reflexivity.
  - simpl. split; [exact Ho1|].
    intros a Hne. rewrite (Ha1 a Hne), Harr. reflexivity.
Qed.

Lemma validateArgs_heap {Ctx C : Type} (ctx : Ctx) (defs : list loc)
      (args : loc) (h0 : Heap) :
  fst (@validateArgs Ctx C ctx defs args h0) = fst (fill defs args h0).
Proof.
  rewrite validateArgs_fill.
  destruct (fill defs args h0) as [h3 [[]|e]]; [|reflexivity].
  cbv zeta. destruct (negb _); [reflexivity|].
  destruct (_ && _); reflexivity.
Qed.

(** After stamping, the id of every spec of the list is one of the
    positions at which it sits. *)
Lemma stamped_id (defs : list loc) (h : Heap) (r : loc) :
  In r defs ->
  exists j, id_ (objs (fst (addIdToArgs defs h)) r) = Z.of_nat j
            /\ defs !! j = Some r /\ last_index r defs = Some j.
Proof.
  intros Hin. destruct (last_index_elem r defs Hin) as [j Hj].
  destruct (addIdToArgs_from_spec defs 0 h) as (_ & _ & Hobj).
  exists j. unfold addIdToArgs. rewrite Hobj, Hj. simpl.
  split; [reflexivity|]. split; [apply last_index_lookup, Hj|reflexivity].
Qed.

Lemma stamped_frame (defs : list loc) (h : Heap) (r : loc) :
  ~ In r defs -> objs (fst (addIdToArgs defs h)) r = objs h r.
Proof.
  intros Hnot. destruct (addIdToArgs_from_spec defs 0 h) as (_ & _ & Hobj).
  unfold addIdToArgs. rewrite Hobj, (last_index_not_elem r defs Hnot).
  reflexivity.
Qed.

Lemma numOptionalArgs_no_rest (l : list Arg) :
  has_rest l = false -> numOptionalArgs l = Z.of_nat (length l).
Proof.
  unfold numOptionalArgs, has_rest, is_rest.
  assert (forall acc, existsb (fun a => flag (rest a)) l = false ->
            fold_left (fun total arg => if flag (rest arg) then -1 else total + 1) l acc
            = acc + Z.of_nat (length l)) as H.
  { induction l as [|a l IH]; intros acc Hno; simpl in *; [lia|].
    apply orb_false_iff in Hno as [Ha Hl]. rewrite Ha, (IH _ Hl). lia. }
  intros Hno. rewrite (H 0 Hno). lia.
Qed.

(** The first loop, when every id it meets is below [n] and the array
    has at least [n] elements: length and the elements from [n] on stay. *)
Lemma for_of_bind_supplied_tail (args : loc) (n : nat) (l : list loc) :
  forall h,
    (forall r, In r l -> 0 <= id_ (objs h r) < Z.of_nat n) ->
    (n <= length (arrs h args))%nat ->
    drop n (arrs (fst (for_of l (bind_supplied args) h)) args)
    = drop n (arrs h args)
    /\ length (arrs (fst (for_of l (bind_supplied args) h)) args)
       = length (arrs h args).
Proof.
  induction l as [|r l IH]; intros h Hid Hlen.
  - split; reflexivity.
  - rewrite for_of_cons, bind_supplied_eq.
    destruct (parse_token _ _) as [v|e]; [|split; reflexivity].
    assert (0 <= id_ (objs h r) < Z.of_nat n) as Hr by (apply Hid; left; reflexivity).
    assert (length (arrs (write h args (id_ (objs h r)) v) args)
            = length (arrs h args)) as Hl.
    { rewrite write_arrs_same, arr_set_length by lia. lia. }
    destruct (IH (write h args (id_ (objs h r)) v)) as [Hd Hl'].
    + intros r' Hin. rewrite write_objs. apply Hid. right. exact Hin.
    + rewrite Hl. exact Hlen.
    + split.
      * rewrite Hd, write_arrs_same. apply arr_set_drop; [exact Hr|exact Hlen].
      * rewrite Hl'. exact Hl.
Qed.

(** C6 as stated fails: one required spec, no rest slot, two tokens.
    Both tokens get through filling, no choice is refused and no parser
    throws, and the list is exceeded; but the first token is the empty
    string, and the binder throws the required-arguments error, not the
    unexpected-arguments one. *)
Lemma excess_tokens_after_empty_token :
  has_rest (specs_of (heap_of [required_arg "a"] [JStr ""; JStr "y"]) [0%nat]) = false
  /\ (length [0%nat] < length [JStr ""; JStr "y"])%nat
  /\ snd (fill [0%nat] 0%nat (heap_of [required_arg "a"] [JStr ""; JStr "y"])) = Ok tt
  /\ snd (run_binder [required_arg "a"] [JStr ""; JStr "y"])
     = Throw (RequiredArgsError [0%nat])
  /\ ~ (exists excess,
          snd (run_binder [required_arg "a"] [JStr ""; JStr "y"])
          = Throw (UnexpectedArgsError excess)).
Proof.
  split; [reflexivity|]. split; [simpl; lia|]. split; [reflexivity|].
  split; [reflexivity|]. intros [excess H]. discriminate H.
Qed.

(** *** The loops on a list of distinct spec objects

    When the specs of a segment carry the ids [i0], [i0 + 1], ... each
    round reads and writes its own position, and the loops are described
    position by position. *)

Lemma for_of_bind_supplied_values (args : loc) (l : list loc) :
  forall (i0 : nat) (h : Heap),
    (forall j r, l !! j = Some r -> id_ (objs h r) = Z.of_nat (i0 + j)) ->
    (i0 + length l <= length (arrs h args))%nat ->
    match for_of l (bind_supplied args) h with
    | (h', Ok _) =>
        (forall j r, l !! j = Some r ->
           parse_token (objs h r) (arr_get (arrs h args) (Z.of_nat (i0 + j)))
           = Ok (arr_get (arrs h' args) (Z.of_nat (i0 + j))))
        /\ (forall x, x < Z.of_nat i0 \/ Z.of_nat (i0 + length l) <= x ->
              arr_get (arrs h' args) x = arr_get (arrs h args) x)
        /\ length (arrs h' args) = length (arrs h args)
    | (h', Throw e) =>
        exists j r, l !! j = Some r
          /\ parse_token (objs h r) (arr_get (arrs h args) (Z.of_nat (i0 + j)))
             = Throw e
    end.
Proof.
  induction l as [|r l IH]; intros i0 h Hid Hlen.
  - rewrite for_of_nil. split; [intros j r' H; discriminate|].
    split; reflexivity.
  - rewrite for_of_cons, bind_supplied_eq.
    assert (id_ (objs h r) = Z.of_nat i0) as Hr.
    { rewrite (Hid 0%nat r eq_refl). f_equal. lia. }
    rewrite Hr. simpl in Hlen.
    destruct (parse_token (objs h r) (arr_get (arrs h args) (Z.of_nat i0)))
      as [v|e] eqn:Hstep.
    + set (h1 := write h args (Z.of_nat i0) v).
      assert (forall x, arr_get (arrs h1 args) x
                        = if x =? Z.of_nat i0 then v else arr_get (arrs h args) x)
        as Hget.
      { intros x. unfold h1. rewrite write_arrs_same. apply arr_get_set. lia. }
      assert (length (arrs h1 args) = length (arrs h args)) as Hl1.
      { unfold h1. rewrite write_arrs_same, arr_set_length by lia. lia. }
      specialize (IH (S i0) h1).
      destruct (for_of l (bind_supplied args) h1) as [h' [[]|e]].
      * destruct IH as (Hv & Hout & Hl).
        { intros j r' Hj. unfold h1. rewrite write_objs.
          rewrite (Hid (S j) r' Hj). f_equal. lia. }
        { rewrite Hl1. lia. }
        split; [|split].
        -- intros [|j] r' Hj; simpl in Hj.
           ++ injection Hj as <-.
              replace (Z.of_nat (i0 + 0)) with (Z.of_nat i0) by (f_equal; lia).
              rewrite Hstep, Hout by lia. rewrite Hget, Z.eqb_refl. reflexivity.
           ++ specialize (Hv j r' Hj). unfold h1 in Hv at 1.
              rewrite write_objs, Hget in Hv.
              replace (Z.of_nat (i0 + S j)) with (Z.of_nat (S i0 + j)) by (f_equal; lia).
              destruct (Z.eqb_spec (Z.of_nat (S i0 + j)) (Z.of_nat i0)); [lia|].
              exact Hv.
        -- intros x Hx. rewrite Hout by (simpl in Hx; lia). rewrite Hget.
           destruct (Z.eqb_spec x (Z.of_nat i0)); [simpl in Hx; lia|reflexivity].
        -- rewrite Hl. exact Hl1.
      * destruct IH as (j & r' & Hj & Hthrow).
        { intros j r' Hj. unfold h1. rewrite write_objs.
          rewrite (Hid (S j) r' Hj). f_equal. lia. }
        { rewrite Hl1. lia. }
        exists (S j), r'. split; [exact Hj|].
        unfold h1 in Hthrow at 1. rewrite write_objs, Hget in Hthrow.
        replace (Z.of_nat (i0 + S j)) with (Z.of_nat (S i0 + j)) by (f_equal; lia).
        destruct (Z.eqb_spec (Z.of_nat (S i0 + j)) (Z.of_nat i0)); [lia|].
        exact Hthrow.
    + exists 0%nat, r. split; [reflexivity|].
      replace (Z.of_nat (i0 + 0)) with (Z.of_nat i0) by (f_equal; lia).
      exact Hstep.
Qed.

Lemma fill_missing_ok (args r : loc) (h : Heap) (v : JsVal) :
  default_value (objs h r) = Ok v ->
  fill_missing args r h = (store_default h args (id_ (objs h r)) v, Ok tt).
Proof.
  intros H. rewrite fill_missing_eq, H. destruct v; reflexivity.
Qed.

Lemma store_default_spec (h : Heap) (args : loc) (i0 : nat) (v : JsVal) :
  (length (arrs h args) <= i0)%nat ->
  objs (store_default h args (Z.of_nat i0) v) = objs h
  /\ (forall x, arr_get (arrs (store_default h args (Z.of_nat i0) v) args) x
                = if x =? Z.of_nat i0 then v else arr_get (arrs h args) x)
  /\ (length (arrs h args)
      <= length (arrs (store_default h args (Z.of_nat i0) v) args) <= S i0)%nat.
Proof.
  intros Hlen.
  assert (forall x, arr_get (arrs (write h args (Z.of_nat i0) v) args) x
                    = if x =? Z.of_nat i0 then v else arr_get (arrs h args) x)
    as Hw.
  { intros x. rewrite write_arrs_same. apply arr_get_set. lia. }
  assert (length (arrs h args)
          <= length (arrs (write h args (Z.of_nat i0) v) args) <= S i0)%nat as Hl.
  { rewrite write_arrs_same, arr_set_length by lia. lia. }
  destruct v; simpl; try (split; [reflexivity|split; [exact Hw|exact Hl]]).
  split; [reflexivity|]. split; [|lia].
  intros x. destruct (Z.eqb_spec x (Z.of_nat i0)) as [->|]; [|reflexivity].
  apply arr_get_beyond. lia.
Qed.

Lemma for_of_fill_missing_values (args : loc) (l : list loc) :
  forall (i0 : nat) (h : Heap),
    (forall j r, l !! j = Some r -> id_ (objs h r) = Z.of_nat (i0 + j)) ->
    (length (arrs h args) <= i0)%nat ->
    match for_of l (fill_missing args) h with
    | (h', Ok _) =>
        (forall j r, l !! j = Some r ->
           default_value (objs h r)
           = Ok (arr_get (arrs h' args) (Z.of_nat (i0 + j))))
        /\ (forall x, x < Z.of_nat i0 \/ Z.of_nat (i0 + length l) <= x ->
              arr_get (arrs h' args) x = arr_get (arrs h args) x)
        /\ (length (arrs h args) <= length (arrs h' args)
            <= Nat.max (length (arrs h args)) (i0 + length l))%nat
    | (h', Throw e) =>
        exists j r, l !! j = Some r /\ default_value (objs h r) = Throw e
    end.
Proof.
  induction l as [|r l IH]; intros i0 h Hid Hlen.
  - rewrite for_of_nil. split; [intros j r' H; discriminate|].
    split; [reflexivity|lia].
  - rewrite for_of_cons.
    assert (id_ (objs h r) = Z.of_nat i0) as Hr.
    { rewrite (Hid 0%nat r eq_refl). f_equal. lia. }
    destruct (default_value (objs h r)) as [v|e] eqn:Hstep.
    + rewrite (fill_missing_ok args r h v Hstep), Hr.
      destruct (store_default_spec h args i0 v Hlen) as (Ho1 & Hget & Hl1).
      set (h1 := store_default h args (Z.of_nat i0) v) in *.
      specialize (IH (S i0) h1).
      destruct (for_of l (fill_missing args) h1) as [h' [[]|e]].
      * destruct IH as (Hv & Hout & Hl).
        { intros j r' Hj. rewrite Ho1, (Hid (S j) r' Hj). f_equal. lia. }
        { lia. }
        split; [|split].
        -- intros [|j] r' Hj; simpl in Hj.
           ++ injection Hj as <-.
              replace (Z.of_nat (i0 + 0)) with (Z.of_nat i0) by (f_equal; lia).
              rewrite Hstep, Hout by lia. rewrite Hget, Z.eqb_refl. reflexivity.
           ++ specialize (Hv j r' Hj). rewrite Ho1 in Hv.
              replace (Z.of_nat (i0 + S j)) with (Z.of_nat (S i0 + j)) by (f_equal; lia).
              exact Hv.
        -- intros x Hx. rewrite Hout by (simpl in Hx; lia). rewrite Hget.
           destruct (Z.eqb_spec x (Z.of_nat i0)); [simpl in Hx; lia|reflexivity].
        -- simpl. lia.
      * destruct IH as (j & r' & Hj & Hthrow).
        { intros j r' Hj. rewrite Ho1, (Hid (S j) r' Hj). f_equal. lia. }
        { lia. }
        exists (S j), r'. split; [exact Hj|]. rewrite Ho1 in Hthrow. exact Hthrow.
    + rewrite fill_missing_eq, Hstep. exists 0%nat, r. split; [reflexivity|exact Hstep].
Qed.

(** What [fill] does on a list of distinct spec objects: position [i]
    of the array ends as the parse of token [i] where a token was
    supplied and as the spec's default where none was; past the specs the
    array is as supplied.  When it throws, a parser, a choices check or a
    default supplier threw that error. *)
Lemma fill_spec (defs : list loc) (args : loc) (h0 : Heap) :
  List.NoDup defs ->
  match fill defs args h0 with
  | (h3, Ok _) =>
      (forall i r tok, defs !! i = Some r -> arrs h0 args !! i = Some tok ->
         parse_token (objs h0 r) tok = Ok (arr_get (arrs h3 args) (Z.of_nat i)))
      /\ (forall i r, defs !! i = Some r -> (length (arrs h0 args) <= i)%nat ->
            default_value (objs h0 r) = Ok (arr_get (arrs h3 args) (Z.of_nat i)))
      /\ (forall x, Z.of_nat (length defs) <= x ->
            arr_get (arrs h3 args) x = arr_get (arrs h0 args) x)
      /\ (length (arrs h0 args) <= length (arrs h3 args)
          <= Nat.max (length (arrs h0 args)) (length defs))%nat
  | (h3, Throw e) =>
      (exists i r tok, defs !! i = Some r /\ arrs h0 args !! i = Some tok
                       /\ parse_token (objs h0 r) tok = Throw e)
      \/ (exists i r, defs !! i = Some r /\ (length (arrs h0 args) <= i)%nat
                      /\ default_value (objs h0 r) = Throw e)
  end.
Proof.
  intros Hnd.
  destruct (addIdToArgs_from_spec defs 0 h0) as (_ & Harr & _).
  fold (addIdToArgs defs h0) in Harr.
  assert (forall i r, defs !! i = Some r ->
            id_ (objs (fst (addIdToArgs defs h0)) r) = Z.of_nat i) as Hid.
  { intros i r Hi.
    destruct (stamped_id defs h0 r) as (j & Hj & _ & Hlast).
    - apply list_elem_of_In. eapply list_elem_of_lookup_2. exact Hi.
    - rewrite (last_index_NoDup defs i r Hnd Hi) in Hlast.
      injection Hlast as <-. exact Hj. }
  assert (forall r, parse_token (objs (fst (addIdToArgs defs h0)) r)
                    = parse_token (objs h0 r)) as Hpt
    by (intros r; apply addIdToArgs_rest).
  assert (forall r, default_value (objs (fst (addIdToArgs defs h0)) r)
                    = default_value (objs h0 r)) as Hdv
    by (intros r; apply addIdToArgs_rest).
  rewrite fill_unfold. cbv zeta.
  set (h1 := fst (addIdToArgs defs h0)) in *.
  rewrite Harr. set (N := length (arrs h0 args)).
  pose proof (for_of_bind_supplied_values args (take N defs) 0 h1) as L1.
  pose proof (for_of_bind_supplied_frame args (take N defs) h1) as [Ho2 _].
  assert (length (take N defs) <= N)%nat as HtakeN by (rewrite length_take; lia).
  assert (length (take N defs) <= length defs)%nat as HtakeD
    by (rewrite length_take; lia).
  destruct (for_of (take N defs) (bind_supplied args) h1) as [h2 [[]|e]];
    simpl in Ho2.
  - destruct L1 as (Hv1 & Hout1 & Hl1).
    { intros j r Hj. apply lookup_take_Some in Hj as [Hj _]. apply Hid, Hj. }
    { rewrite Harr. fold N. lia. }
    rewrite Harr in Hl1. fold N in Hl1. rewrite Hl1.
    pose proof (for_of_fill_missing_values args (drop N defs) N h2) as L2.
    destruct (for_of (drop N defs) (fill_missing args) h2) as [h3 [[]|e]].
    + destruct L2 as (Hv2 & Hout2 & Hl2).
      { intros j r Hj. rewrite lookup_drop in Hj. rewrite Ho2. apply Hid, Hj. }
      { lia. }
      split; [|split; [|split]].
      * intros i r tok Hi Htok.
        assert (i < N)%nat as HiN by (apply lookup_lt_Some in Htok; exact Htok).
        assert (take N defs !! i = Some r) as Hti
          by (rewrite lookup_take_lt by exact HiN; exact Hi).
        specialize (Hv1 i r Hti). simpl in Hv1.
        rewrite Hpt, Harr, (arr_get_lookup _ _ _ Htok) in Hv1.
        rewrite Hout2 by lia. exact Hv1.
      * intros i r Hi HiN.
        assert (drop N defs !! (i - N)%nat = Some r) as Hdi.
        { rewrite lookup_drop. replace (N + (i - N))%nat with i by lia. exact Hi. }
        specialize (Hv2 _ _ Hdi). rewrite Ho2, Hdv in Hv2.
        replace (N + (i - N))%nat with i in Hv2 by lia. exact Hv2.
      * intros x Hx. rewrite length_drop in Hout2.
        rewrite Hout2 by lia.
        rewrite Hout1 by (right; simpl; lia).
        rewrite Harr. reflexivity.
      * rewrite Hl1, length_drop in Hl2. lia.
    + destruct L2 as (j & r & Hj & Hthrow).
      { intros j r Hj. rewrite lookup_drop in Hj. rewrite Ho2. apply Hid, Hj. }
      { lia. }
      right. exists (N + j)%nat, r. rewrite lookup_drop in Hj.
      split; [exact Hj|]. split; [lia|].
      rewrite Ho2, Hdv in Hthrow. exact Hthrow.
  - destruct L1 as (j & r & Hj & Hthrow).
    { intros j r Hj. apply lookup_take_Some in Hj as [Hj _]. apply Hid, Hj. }
    { rewrite Harr. fold N. lia. }
    left. apply lookup_take_Some in Hj as [Hj HjN].
    destruct (lookup_lt_is_Some_2 (arrs h0 args) j HjN) as [tok Htok].
    exists j, r, tok. split; [exact Hj|]. split; [exact Htok|].
    simpl in Hthrow.
    rewrite Hpt, Harr, (arr_get_lookup _ _ _ Htok) in Hthrow. exact Hthrow.
Qed.

(** C2. Whenever the binder gets as far as its required-arguments check
    (no choice refused, no parser or default supplier threw) and the slot
    of a required spec holds a falsy value, be it [undefined] or a defined
    one such as [0] or the empty string, [validateArgs] throws the
    required-arguments error, and that spec is among the specs it
    carries. *)
Theorem falsy_required_is_missing {Ctx C : Type} (ctx : Ctx)
        (defs : list loc) (args : loc) (h0 : Heap) (r : loc) :
  snd (fill defs args h0) = Ok tt ->
  In r defs ->
  required (objs h0 r) = true ->
  truthy (slot_value (fst (fill defs args h0)) args r) = false ->
  @validateArgs Ctx C ctx defs args h0
  = (fst (fill defs args h0),
     Throw (RequiredArgsError (missingRequired (fst (fill defs args h0)) defs args)))
  /\ In r (missingRequired (fst (fill defs args h0)) defs args).
Proof.
  intros Hok Hin Hreq Hfalsy.
  assert (In r (missingRequired (fst (fill defs args h0)) defs args)) as Hmiss.
  { unfold missingRequired. apply filter_In. split; [exact Hin|].
    destruct (fill_frame defs args h0) as [Ho _]. rewrite Ho.
    destruct (addIdToArgs_rest defs h0 r) as (_ & -> & _).
    rewrite Hreq. simpl.
    unfold slot_value in Hfalsy. rewrite Ho in Hfalsy. rewrite Hfalsy.
    reflexivity. }
  split; [|exact Hmiss].
  rewrite validateArgs_fill.
  destruct (fill defs args h0) as [h3 res]. simpl in *. subst res.
  destruct (missingRequired h3 defs args); [contradiction|reflexivity].
Qed.

Lemma falsy_required_is_missing_witness :
  (* the empty string, through the builder's own parser *)
  run_binder [required_arg "a"] [JStr ""]
  = (fst (fill [0%nat] 0%nat (heap_of [required_arg "a"] [JStr ""])),
     Throw (RequiredArgsError [0%nat]))
  /\ slot_value (fst (fill [0%nat] 0%nat (heap_of [required_arg "a"] [JStr ""])))
                0%nat 0%nat = JStr ""
  (* the number zero, parsed from the token 0 *)
  /\ snd (run_binder [required_count] [JStr "0"]) = Throw (RequiredArgsError [0%nat])
  /\ slot_value (fst (fill [0%nat] 0%nat (heap_of [required_count] [JStr "0"])))
                0%nat 0%nat = JNum 0.
Proof.
  split.
  - apply (@falsy_required_is_missing unit unit tt [0%nat] 0%nat
             (heap_of [required_arg "a"] [JStr ""]) 0%nat);
      [reflexivity | left; reflexivity | reflexivity | reflexivity].
  - split; [reflexivity|]. split; [|reflexivity].
    unfold run_binder. change (addresses [required_count]) with [0%nat].
    rewrite (proj1 (@falsy_required_is_missing unit unit tt [0%nat] 0%nat
             (heap_of [required_count] [JStr "0"]) 0%nat
             eq_refl (or_introl eq_refl) eq_refl eq_refl)).
    reflexivity.
Defined.

(** C6, as amended. With no rest slot the maximum is the number of
    specs.  When the
    array holds more values than that, and the binder gets past filling
    and its required-arguments check, [validateArgs] throws the
    unexpected-arguments error with exactly the elements past the
    maximum, which are the excess tokens as supplied; the heap it leaves
    is the one filling produced, so the earlier positions keep their
    bound values. *)
Theorem excess_tokens_rejected {Ctx C : Type} (ctx : Ctx)
        (defs : list loc) (args : loc) (h0 : Heap) :
  has_rest (specs_of h0 defs) = false ->
  (length defs < length (arrs h0 args))%nat ->
  snd (fill defs args h0) = Ok tt ->
  missingRequired (fst (fill defs args h0)) defs args = [] ->
  @validateArgs Ctx C ctx defs args h0
  = (fst (fill defs args h0),
     Throw (UnexpectedArgsError
              (drop (length defs) (arrs (fst (fill defs args h0)) args))))
  /\ drop (length defs) (arrs (fst (fill defs args h0)) args)
     = drop (length defs) (arrs h0 args)
  /\ length (arrs (fst (fill defs args h0)) args) = length (arrs h0 args).
Proof.
  intros Hno Hlen Hok Hmiss.
  assert (drop (length defs) (arrs (fst (fill defs args h0)) args)
          = drop (length defs) (arrs h0 args)
          /\ length (arrs (fst (fill defs args h0)) args) = length (arrs h0 args))
    as [Hdrop Hsame].
  { destruct (addIdToArgs_from_spec defs 0 h0) as (_ & Harr & _).
    fold (addIdToArgs defs h0) in Harr.
    rewrite fill_unfold. cbv zeta.
    set (h1 := fst (addIdToArgs defs h0)) in *.
    rewrite Harr.
    rewrite (take_ge defs) by lia.
    destruct (for_of_bind_supplied_tail args (length defs) defs h1) as [Hd Hl].
    - intros r Hin. destruct (stamped_id defs h0 r Hin) as (j & Hj & Hlk & _).
      fold h1 in Hj. rewrite Hj. apply lookup_lt_Some in Hlk. lia.
    - rewrite Harr. lia.
    - rewrite Harr in Hd, Hl.
      destruct (for_of defs (bind_supplied args) h1) as [h2 [[]|e]];
        simpl in Hd, Hl; [|simpl; split; assumption].
      rewrite (drop_ge defs) by lia. rewrite for_of_nil. simpl.
      split; assumption. }
  split; [|split; assumption].
  rewrite validateArgs_fill.
  destruct (fill defs args h0) as [h3 res]. simpl in *. subst res.
  rewrite Hmiss. simpl.
  rewrite (numOptionalArgs_no_rest _ Hno). unfold specs_of.
  rewrite length_map.
  destruct (Z.eqb_spec (Z.of_nat (length defs)) (-1)) as [E|_]; [lia|].
  destruct (Z.gtb_spec (Z.of_nat (length (arrs h3 args))) (Z.of_nat (length defs)))
    as [_|E]; [|lia].
  simpl. unfold slice_from.
  destruct (Z.ltb_spec (Z.of_nat (length defs)) 0) as [E|_]; [lia|].
  rewrite Nat2Z.id. reflexivity.
Qed.

Lemma excess_tokens_rejected_witness :
  snd (run_binder defs_a_b xyz) = Throw (UnexpectedArgsError [JStr "z"])
  /\ arrs (fst (run_binder defs_a_b xyz)) 0%nat = xyz.
Proof.
  pose proof (@excess_tokens_rejected unit unit tt (addresses defs_a_b) 0%nat
                (heap_of defs_a_b xyz) eq_refl) as H.
  destruct H as (Hrun & Hdrop & Hlen);
    [simpl; lia | reflexivity | reflexivity |].
  unfold run_binder. rewrite Hrun. split; reflexivity.
Defined.

(** *** Binding within the bounds *)

Lemma tags_of_lookup (l : list Arg) :
  forall ts i a,
    tags_of l = Some ts -> l !! i = Some a ->
    exists t, ts !! i = Some t /\ tag_of a = Some t.
Proof.
  induction l as [|d l IH]; intros ts i a Hts Hi; [discriminate|].
  simpl in Hts. destruct (tag_of d) as [t|] eqn:Ht; [|discriminate].
  destruct (tags_of l) as [ts'|] eqn:Hts'; [|discriminate].
  injection Hts as <-. destruct i as [|i]; simpl in Hi.
  - injection Hi as <-. exists t. split; [reflexivity|exact Ht].
  - destruct (IH ts' i a eq_refl Hi) as (t' & Hl & Ha). exists t'. split; assumption.
Qed.

Lemma tags_of_length (l : list Arg) (ts : list Tag) :
  tags_of l = Some ts -> length ts = length l.
Proof.
  revert ts. induction l as [|d l IH]; intros ts Hts; simpl in Hts.
  - injection Hts as <-. reflexivity.
  - destruct (tag_of d); [|discriminate].
    destruct (tags_of l) as [ts'|]; [|discriminate].
    injection Hts as <-. simpl. f_equal. apply IH. reflexivity.
Qed.

Lemma required_optional_lookup (k m i : nat) (t : Tag) :
  (replicate k TRequired ++ replicate m TOptional) !! i = Some t ->
  t = if (i <? k)%nat then TRequired else TOptional.
Proof.
  intros H. destruct (Nat.ltb_spec i k) as [Hlt|Hge].
  - rewrite lookup_app_l in H by (rewrite length_replicate; exact Hlt).
    apply lookup_replicate in H as [-> _]. reflexivity.
  - rewrite lookup_app_r in H by (rewrite length_replicate; exact Hge).
    apply lookup_replicate in H as [-> _]. reflexivity.
Qed.

Lemma required_optional_no_rest (l : list Arg) (k m : nat) :
  tags_of l = Some (replicate k TRequired ++ replicate m TOptional) ->
  has_rest l = false.
Proof.
  intros Hts. unfold has_rest.
  destruct (existsb is_rest l) eqn:E; [|reflexivity].
  apply existsb_exists in E as (a & Hin & Hrest).
  apply list_elem_of_In, list_elem_of_lookup in Hin as [i Hi].
  destruct (tags_of_lookup l _ i a Hts Hi) as (t & Ht & Ha).
  apply required_optional_lookup in Ht.
  apply tag_of_flags in Ha as [_ Hflag]. unfold is_rest in Hrest.
  rewrite Hrest in Hflag. subst t. destruct (i <? k)%nat; discriminate.
Qed.

Lemma filter_none {A} (f : A -> bool) (l : list A) :
  (forall x, In x l -> f x = false) -> List.filter f l = [].
Proof.
  induction l as [|x l IH]; intros H; [reflexivity|].
  simpl. rewrite (H x) by (left; reflexivity).
  apply IH. intros y Hy. apply H. right. exact Hy.
Qed.

(** C3, as amended. For a list of distinct spec objects, [k] required
    then [m] optional and no rest, and [N] tokens with [k <= N <= k + m]:
    when every supplied token passes its spec's choices check and parses,
    to a truthy value where the spec is required, and every default
    supplier that is consulted resolves, [validateArgs] resolves; each of
    the [k + m] positions then reads as the parse of its token where one
    was supplied and as the spec's default, [undefined] without one, where
    none was; the array has between [N] and [k + m] elements. *)
Theorem binding_within_bounds {Ctx C : Type} (ctx : Ctx)
        (defs : list loc) (args : loc) (h0 : Heap) (k m : nat) :
  List.NoDup defs ->
  tags_of (specs_of h0 defs)
  = Some (replicate k TRequired ++ replicate m TOptional) ->
  (k <= length (arrs h0 args) <= k + m)%nat ->
  (forall i r tok, defs !! i = Some r -> arrs h0 args !! i = Some tok ->
     exists v, parse_token (objs h0 r) tok = Ok v
               /\ (required (objs h0 r) = true -> truthy v = true)) ->
  (forall i r, defs !! i = Some r -> (length (arrs h0 args) <= i)%nat ->
     exists v, default_value (objs h0 r) = Ok v) ->
  snd (@validateArgs Ctx C ctx defs args h0) = Ok {| subcommand := None |}
  /\ (forall i r tok, defs !! i = Some r -> arrs h0 args !! i = Some tok ->
        parse_token (objs h0 r) tok
        = Ok (arr_get (arrs (fst (@validateArgs Ctx C ctx defs args h0)) args)
                      (Z.of_nat i)))
  /\ (forall i r, defs !! i = Some r -> (length (arrs h0 args) <= i)%nat ->
        default_value (objs h0 r)
        = Ok (arr_get (arrs (fst (@validateArgs Ctx C ctx defs args h0)) args)
                      (Z.of_nat i)))
  /\ (length (arrs h0 args)
      <= length (arrs (fst (@validateArgs Ctx C ctx defs args h0)) args)
      <= k + m)%nat.
Proof.
  intros Hnd Htags HN Hparse Hdefault.
  assert (length defs = (k + m)%nat) as HD.
  { apply tags_of_length in Htags. unfold specs_of in Htags.
    rewrite length_map, length_app, !length_replicate in Htags. lia. }
  pose proof (required_optional_no_rest _ k m Htags) as Hno.
  rewrite validateArgs_heap, validateArgs_fill.
  pose proof (fill_spec defs args h0 Hnd) as Hfill.
  destruct (fill_frame defs args h0) as [Hobjs _].
  destruct (fill defs args h0) as [h3 [[]|e]]; simpl in Hobjs.
  - destruct Hfill as (Hv & Hd & _ & Hlen). cbv zeta. simpl fst.
    assert (missingRequired h3 defs args = []) as ->.
    { apply filter_none. intros r Hin.
      apply list_elem_of_In, list_elem_of_lookup in Hin as [i Hi].
      rewrite Hobjs.
      destruct (addIdToArgs_rest defs h0 r) as (_ & -> & _).
      destruct (required (objs h0 r)) eqn:Hreq; [simpl|reflexivity].
      destruct (stamped_id defs h0 r) as (j & -> & _ & Hlast).
      { apply list_elem_of_In. eapply list_elem_of_lookup_2. exact Hi. }
      rewrite (last_index_NoDup defs i r Hnd Hi) in Hlast. injection Hlast as <-.
      assert (i < k)%nat as Hik.
      { assert (specs_of h0 defs !! i = Some (objs h0 r)) as Hs
          by (unfold specs_of; rewrite list_lookup_fmap, Hi; reflexivity).
        destruct (tags_of_lookup _ _ i _ Htags Hs) as (t & Ht & Ha).
        apply required_optional_lookup in Ht. apply tag_of_flags in Ha as [Hr _].
        subst t. destruct (Nat.ltb_spec i k); [assumption|].
        rewrite Hreq in Hr. discriminate. }
      destruct (lookup_lt_is_Some_2 (arrs h0 args) i) as [tok Htok]; [lia|].
      destruct (Hparse i r tok Hi Htok) as (v & Hpv & Htruthy).
      rewrite (Hv i r tok Hi Htok) in Hpv. injection Hpv as <-.
      rewrite (Htruthy Hreq). reflexivity. }
    simpl. rewrite (numOptionalArgs_no_rest _ Hno). unfold specs_of.
    rewrite length_map, HD.
    destruct (Z.gtb_spec (Z.of_nat (length (arrs h3 args))) (Z.of_nat (k + m)))
      as [E|_]; [lia|].
    rewrite andb_false_r. simpl.
    split; [reflexivity|]. split; [exact Hv|]. split; [exact Hd|]. lia.
  - exfalso. destruct Hfill as [(i & r & tok & Hi & Htok & Hthrow)
                               | (i & r & Hi & HiN & Hthrow)].
    + destruct (Hparse i r tok Hi Htok) as (v & Hpv & _). congruence.
    + destruct (Hdefault i r Hi HiN) as (v & Hdv). congruence.
Qed.

Lemma NoDup_01 : List.NoDup [0%nat; 1%nat].
Proof.
  constructor; [simpl; intros [H|[]]; discriminate|].
  constructor; [simpl; tauto|constructor].
Qed.

Lemma binding_within_bounds_witness :
  snd (run_binder defs_a_d [JStr "x"]) = Ok {| subcommand := None |}
  /\ arr_get (arrs (fst (run_binder defs_a_d [JStr "x"])) 0%nat) 0 = JStr "x"
  /\ arr_get (arrs (fst (run_binder defs_a_d [JStr "x"])) 0%nat) 1 = JStr "d".
Proof.
  destruct (@binding_within_bounds unit unit tt (addresses defs_a_d) 0%nat
              (heap_of defs_a_d [JStr "x"]) 1 1 NoDup_01 eq_refl)
    as (Hok & Hv & Hd & _).
  - simpl. lia.
  - intros [|[|i]] r tok Hi Htok; simpl in Hi, Htok; try discriminate.
    injection Hi as <-. injection Htok as <-.
    exists (JStr "x"). split; reflexivity.
  - intros [|[|i]] r Hi Hlen; simpl in Hi, Hlen; try discriminate; [lia|].
    injection Hi as <-. exists (JStr "d"). reflexivity.
  - split; [exact Hok|]. split.
    + pose proof (Hv 0%nat 0%nat (JStr "x") eq_refl eq_refl) as E.
      exact (f_equal (fun res => match res with Ok v => v | Throw _ => JUndefined end)
                     (eq_sym E)).
    + pose proof (Hd 1%nat 1%nat eq_refl (le_n 1)) as E.
      exact (f_equal (fun res => match res with Ok v => v | Throw _ => JUndefined end)
                     (eq_sym E)).
Defined.

(** C3 as stated fails: one required spec with choices, one token, so
    [k = N = 1] and [m = 0], and the binder throws the invalid-choice
    error instead of resolving. *)
Lemma binding_refuses_choice :
  tags_of [required_ab] = Some (replicate 1 TRequired ++ replicate 0 TOptional)
  /\ (1 <= length [JStr "c"] <= 1 + 0)%nat
  /\ snd (run_binder [required_ab] [JStr "c"])
     = Throw (JsError (invalid_choice_message (JStr "c") ["a"; "b"]%string))
  /\ ~ (exists res, snd (run_binder [required_ab] [JStr "c"]) = Ok res).
Proof.
  split; [reflexivity|]. split; [simpl; lia|]. split; [reflexivity|].
  intros [res H]. discriminate H.
Qed.

(** Two more ways the statement of C3 fails: a token that parses to a
    falsy value for a required spec, and an unsupplied optional spec
    without default, which adds no element to the array. *)
Example binding_empty_token :
  snd (run_binder defs_a_b [JStr ""]) = Throw (RequiredArgsError [0%nat]).
Proof. reflexivity. Qed.

Example binding_leaves_array_short :
  snd (run_binder defs_a_b [JStr "x"]) = Ok {| subcommand := None |}
  /\ arrs (fst (run_binder defs_a_b [JStr "x"])) 0%nat = [JStr "x"].
Proof. split; reflexivity. Qed.

(** *** The rest slot *)

(** C4 as stated fails: after binding, the slot of the rest spec holds
    the one value [y], not the list of [y] and [z]. *)
Lemma rest_slot_is_not_a_list :
  ~ (snd (run_binder defs_a_rest xyz) = Ok {| subcommand := None |}
     /\ slot_value (fst (run_binder defs_a_rest xyz)) 0%nat 0%nat = JStr "x"
     /\ slot_value (fst (run_binder defs_a_rest xyz)) 0%nat 1%nat
        = JArr [JStr "y"; JStr "z"]).
Proof.
  intros (_ & _ & H). vm_compute in H. discriminate H.
Qed.

(** C4, as amended. Binding [x y z] against a required [a] and a rest [b]
    resolves and leaves the flat array [x; y; z]: [a] is bound to [x], the
    position of the rest spec holds [y], and [z] follows it.  Whatever
    the tokens, this definition list never gives the unexpected-arguments
    error of the binder's final check. *)
Theorem rest_scenario_flat :
  snd (run_binder defs_a_rest xyz) = Ok {| subcommand := None |}
  /\ arrs (fst (run_binder defs_a_rest xyz)) 0%nat
     = [JStr "x"; JStr "y"; JStr "z"]
  /\ slot_value (fst (run_binder defs_a_rest xyz)) 0%nat 0%nat = JStr "x"
  /\ slot_value (fst (run_binder defs_a_rest xyz)) 0%nat 1%nat = JStr "y"
  /\ forall tokens,
       snd (run_binder defs_a_rest tokens)
       = match fill (addresses defs_a_rest) 0%nat (heap_of defs_a_rest tokens) with
         | (h, Ok _) =>
             match missingRequired h (addresses defs_a_rest) 0%nat with
             | [] => Ok {| subcommand := None |}
             | missing => Throw (RequiredArgsError missing)
             end
         | (_, Throw e) => Throw e
         end.
Proof.
  split; [reflexivity|]. split; [reflexivity|].
  split; [reflexivity|]. split; [reflexivity|].
  intros tokens. unfold run_binder. rewrite validateArgs_fill.
  destruct (fill _ _ _) as [h [[]|e]]; [|reflexivity].
  cbv zeta.
  destruct (missingRequired h (addresses defs_a_rest) 0%nat); reflexivity.
Qed.

(** *** In-place updates *)

(** C10. [validateArgs] works on the caller's objects.  In every outcome:
    each spec object of the list has its [id] set to a position at which
    it sits in the list and is otherwise unchanged; spec objects outside
    the list and arrays other than the caller's are untouched.  The value
    it resolves to holds no array: the bound arguments are the caller's
    array as updated.  For distinct spec objects, once filling is through,
    the [id] of each spec is its position and the array holds, at each
    position, the parse of the supplied token or the default of the
    spec. *)
Theorem validateArgs_in_place {Ctx C : Type} (ctx : Ctx)
        (defs : list loc) (args : loc) (h0 : Heap) :
  (forall r, In r defs ->
     exists j, defs !! j = Some r
       /\ objs (fst (@validateArgs Ctx C ctx defs args h0)) r
          = set_id (objs h0 r) (Z.of_nat j))
  /\ (forall r, ~ In r defs ->
        objs (fst (@validateArgs Ctx C ctx defs args h0)) r = objs h0 r)
  /\ (forall a, a <> args ->
        arrs (fst (@validateArgs Ctx C ctx defs args h0)) a = arrs h0 a)
  /\ (forall res, snd (@validateArgs Ctx C ctx defs args h0) = Ok res ->
        res = {| subcommand := None |})
  /\ (List.NoDup defs -> snd (fill defs args h0) = Ok tt ->
      (forall i r, defs !! i = Some r ->
         id_ (objs (fst (@validateArgs Ctx C ctx defs args h0)) r) = Z.of_nat i)
      /\ (forall i r tok, defs !! i = Some r -> arrs h0 args !! i = Some tok ->
            parse_token (objs h0 r) tok
            = Ok (arr_get (arrs (fst (@validateArgs Ctx C ctx defs args h0)) args)
                          (Z.of_nat i)))
      /\ (forall i r, defs !! i = Some r -> (length (arrs h0 args) <= i)%nat ->
            default_value (objs h0 r)
            = Ok (arr_get (arrs (fst (@validateArgs Ctx C ctx defs args h0)) args)
                          (Z.of_nat i)))).
Proof.
  rewrite validateArgs_heap.
  destruct (fill_frame defs args h0) as [Hobjs Harrs].
  destruct (addIdToArgs_from_spec defs 0 h0) as (_ & _ & Hstamp).
  fold (addIdToArgs defs h0) in Hstamp.
  split; [|split; [|split; [|split]]].
  - intros r Hin. destruct (last_index_elem r defs Hin) as [j Hj].
    exists j. split; [apply last_index_lookup, Hj|].
    rewrite Hobjs, Hstamp, Hj. reflexivity.
  - intros r Hnot. rewrite Hobjs. apply stamped_frame, Hnot.
  - exact Harrs.
  - intros res. rewrite validateArgs_fill.
    destruct (fill defs args h0) as [h3 [[]|e]]; [|discriminate].
    cbv zeta. destruct (negb _); [discriminate|].
    destruct (_ && _); [discriminate|].
    simpl. intros [= <-]. reflexivity.
  - intros Hnd Hok. pose proof (fill_spec defs args h0 Hnd) as Hfill.
    destruct (fill defs args h0) as [h3 res]. simpl in *. subst res.
    destruct Hfill as (Hv & Hd & _ & _).
    split; [|split; assumption].
    intros i r Hi. rewrite Hobjs, Hstamp.
    rewrite (last_index_NoDup defs i r Hnd Hi). reflexivity.
Qed.

Lemma validateArgs_in_place_witness :
  id_ (objs (fst (run_binder defs_a_d [JStr "x"])) 1%nat) = 1
  /\ arr_get (arrs (fst (run_binder defs_a_d [JStr "x"])) 0%nat) 0 = JStr "x"
  /\ arr_get (arrs (fst (run_binder defs_a_d [JStr "x"])) 0%nat) 1 = JStr "d".
Proof.
  destruct (@validateArgs_in_place unit unit tt (addresses defs_a_d) 0%nat
              (heap_of defs_a_d [JStr "x"]))
    as (_ & _ & _ & _ & H).
  destruct (H NoDup_01 eq_refl) as (Hid & Hv & Hd).
  split; [exact (Hid 1%nat 1%nat eq_refl)|]. split.
  - pose proof (Hv 0%nat 0%nat (JStr "x") eq_refl eq_refl) as E.
    exact (f_equal (fun res => match res with Ok v => v | Throw _ => JUndefined end)
                   (eq_sym E)).
  - pose proof (Hd 1%nat 1%nat eq_refl (le_n 1)) as E.
    exact (f_equal (fun res => match res with Ok v => v | Throw _ => JUndefined end)
                   (eq_sym E)).
Defined.

(** The same object at two positions: it is stamped with the later one,
    its parser runs twice on that slot and the earlier slot keeps its
    token. *)
Example shared_spec_object :
  let h := heap_of [required_count] [JStr "0"; JStr "0"] in
  let h' := fst (@validateArgs unit unit tt [0%nat; 0%nat] 0%nat h) in
  id_ (objs h' 0%nat) = 1
  /\ arrs h' 0%nat = [JStr "0"; JNum 1].
Proof. split; reflexivity. Qed.

End BinderFacts.

(* ===================================================================== *)
(** ** The command *)
(* ===================================================================== *)

Module CommandFacts.
Import Js Args Shape Samples Cmd CommandSamples.

Section Facts.
Variables Flags FlagValues Context : Type.
Variable no_flags : Flags.
Variable parse
  : FullOptions Flags FlagValues Context -> list JsVal
    -> IO (ParseResult Flags FlagValues Context).
Variable new_Context : Command Flags FlagValues Context -> IO Context.

Local Abbreviation Cmd_ := (Command Flags FlagValues Context).
Local Abbreviation Opts := (Options Flags FlagValues Context).
Local Abbreviation construct := (new_Command no_flags).
Local Abbreviation body := (exec_body parse new_Context).
Local Abbreviation exec_level := (exec_with parse new_Context).
Local Abbreviation exec_ := (exec parse new_Context).

(** On an array the validator call is [validateArgDefs] itself. *)
Lemma validateArgDefs_called_with_array (specs : list Arg) :
  validateArgDefs_called_with
    (SpecArray (Flags:=Flags) (FlagValues:=FlagValues) (Context:=Context) specs)
  = validateArgDefs specs.
Proof. reflexivity. Qed.


(** *** exec *)

Lemma exec_S (fuel : nat) : exec_ (S fuel) = exec_level (exec_ fuel).
Proof. reflexivity. Qed.

Lemma exec_with_cases (sub_exec : Cmd_ -> option (list JsVal) -> IO JsVal)
      (this : Cmd_) (argv : option (list JsVal)) (w : World) :
  exec_level sub_exec this argv w
  = match body sub_exec this (argv_or_default argv w) w with
    | None => None
    | Some (w', Ok result) => Some (w', Ok result)
    | Some (w', Throw (VersionSignal v)) =>
        Some (logged (render v) w', Ok JUndefined)
    | Some (w', Throw err) => Some (w', Throw err)
    end.
Proof.
  unfold exec_with, try_catch, argv_or_default.
  destruct (exec_body _ _ _ _ _ w) as [[w' [result|err]]|]; try reflexivity.
  destruct err; reflexivity.
Qed.

(** C8. When [parse] throws the version signal, [exec] does not
    reject: it writes the rendered text as one more line of standard
    output and resolves with [undefined].  An error of any other kind
    thrown in the body of [exec] is the error [exec] rejects with, in
    the world the body left. *)
Theorem exec_version_signal :
  (forall fuel (this : Cmd_) argv w w1 v,
     parse (options this) (argv_or_default argv w) w
     = Some (w1, Throw (VersionSignal v)) ->
     exec_ (S fuel) this argv w = Some (logged (render v) w1, Ok JUndefined))
  /\ (forall fuel (this : Cmd_) argv w w' err,
        body (exec_ fuel) this (argv_or_default argv w) w = Some (w', Throw err) ->
        instanceof_VersionSignal err = false ->
        exec_ (S fuel) this argv w = Some (w', Throw err)).
Proof.
  split.
  - intros fuel this argv w w1 v Hparse.
    rewrite exec_S, exec_with_cases.
    unfold exec_body, io_bind. rewrite Hparse. reflexivity.
  - intros fuel this argv w w' err Hbody Hnot.
    rewrite exec_S, exec_with_cases, Hbody.
    destruct err; try reflexivity. discriminate Hnot.
Qed.

(** C9. The version signal is caught wherever the body of [exec]
    throws it: in general, and in particular when the run handler
    throws it and when the [exec] of the subcommand the body
    dispatched to rejects with it.  Each time [exec] writes the
    rendered text to standard output and resolves with [undefined]. *)
Theorem exec_version_signal_anywhere
        (sub_exec : Cmd_ -> option (list JsVal) -> IO JsVal) :
  (forall (this : Cmd_) argv w w' v,
     body sub_exec this (argv_or_default argv w) w
     = Some (w', Throw (VersionSignal v)) ->
     exec_level sub_exec this argv w
     = Some (logged (render v) w', Ok JUndefined))
  /\ (forall (this : Cmd_) argv w w1 p w2 ctx handler w3 v,
        parse (options this) (argv_or_default argv w) w = Some (w1, Ok p) ->
        new_Context this w1 = Some (w2, Ok ctx) ->
        p_subcommand p = None ->
        run (options this) = Some handler ->
        handler (Build_RunParams (p_args p) (p_flags p) ctx) w2
        = Some (w3, Throw (VersionSignal v)) ->
        exec_level sub_exec this argv w
        = Some (logged (render v) w3, Ok JUndefined))
  /\ (forall (this : Cmd_) argv w w1 p w2 ctx subcommand w3 v,
        parse (options this) (argv_or_default argv w) w = Some (w1, Ok p) ->
        new_Context this w1 = Some (w2, Ok ctx) ->
        p_subcommand p = Some subcommand ->
        sub_exec subcommand (Some (p_args p)) w2
        = Some (w3, Throw (VersionSignal v)) ->
        exec_level sub_exec this argv w
        = Some (logged (render v) w3, Ok JUndefined)).
Proof.
  split; [|split].
  - intros this argv w w' v Hbody.
    rewrite exec_with_cases, Hbody. reflexivity.
  - intros this argv w w1 p w2 ctx handler w3 v Hparse Hctx Hsub Hrun Hthrow.
    rewrite exec_with_cases.
    unfold exec_body, io_bind. rewrite Hparse, Hctx, Hsub, Hrun, Hthrow.
    reflexivity.
  - intros this argv w w1 p w2 ctx subcommand w3 v Hparse Hctx Hsub Hthrow.
    rewrite exec_with_cases.
    unfold exec_body, io_bind. rewrite Hparse, Hctx, Hsub, Hthrow.
    reflexivity.
Qed.

(** An [exec] of this class never rejects with the version signal:
    the signal can only come out of a subcommand whose [exec] is not
    this one. *)
Lemma exec_contains_version_signal (fuel : nat) (this : Cmd_) argv w w' err :
  exec_ fuel this argv w = Some (w', Throw err) ->
  instanceof_VersionSignal err = false.
Proof.
  destruct fuel as [|fuel]; [discriminate|].
  rewrite exec_S, exec_with_cases.
  destruct (exec_body _ _ _ _ _ w) as [[w1 [result|e]]|]; try discriminate.
  destruct e; intros [= _ <-]; reflexivity.
Qed.

(** The result of the handler passes through. *)
Lemma exec_runs_handler (fuel : nat) (this : Cmd_) argv w w1 p w2 ctx handler :
  parse (options this) (argv_or_default argv w) w = Some (w1, Ok p) ->
  new_Context this w1 = Some (w2, Ok ctx) ->
  p_subcommand p = None ->
  run (options this) = Some handler ->
  forall w3 result,
    handler (Build_RunParams (p_args p) (p_flags p) ctx) w2 = Some (w3, Ok result) ->
    exec_ (S fuel) this argv w = Some (w3, Ok result).
Proof.
  intros Hparse Hctx Hsub Hrun w3 result Hres.
  rewrite exec_S, exec_with_cases.
  unfold exec_body, io_bind. rewrite Hparse, Hctx, Hsub, Hrun, Hres.
  reflexivity.
Qed.

End Facts.

Lemma exec_version_signal_witness :
  exec version_parse plain_context 1 (command_of run_123) (Some []) world0
  = Some (logged "1.0.0" world0, Ok JUndefined)
  /\ exec failing_parse plain_context 1 (command_of run_123) (Some []) world0
     = Some (world0, Throw (JsError "unknown flag")).
Proof.
  split.
  - apply (proj1 (exec_version_signal unit unit unit version_parse plain_context)
                 0%nat (command_of run_123) (Some []) world0 world0 version_1).
    reflexivity.
  - apply (proj2 (exec_version_signal unit unit unit failing_parse plain_context)
                 0%nat (command_of run_123) (Some []) world0 world0
                 (JsError "unknown flag")); reflexivity.
Defined.

Lemma exec_version_signal_anywhere_witness :
  (* thrown by the run handler *)
  exec plain_parse plain_context 1 (command_of run_version) (Some []) world0
  = Some (logged "1.0.0" world0, Ok JUndefined)
  (* let out by the exec of the subcommand dispatched to *)
  /\ exec_with (dispatch_parse (command_of run_123)) plain_context leaking_exec
               (command_of run_123) (Some []) world0
     = Some (logged "1.0.0" world0, Ok JUndefined).
Proof.
  split.
  - apply (proj1 (proj2 (exec_version_signal_anywhere unit unit unit
                           plain_parse plain_context
                           (exec plain_parse plain_context 0)))
                 (command_of run_version) (Some []) world0 world0
                 (Build_ParseResult [] tt None) world0 tt run_version world0
                 version_1); reflexivity.
  - apply (proj2 (proj2 (exec_version_signal_anywhere unit unit unit
                           (dispatch_parse (command_of run_123)) plain_context
                           leaking_exec))
                 (command_of run_123) (Some []) world0 world0
                 (Build_ParseResult [] tt (Some (command_of run_123))) world0 tt
                 (command_of run_123) world0 version_1); reflexivity.
Defined.

(** [oclip({run: () => 123}).exec([])] resolves to [123]. *)
Example exec_passes_result_through :
  exec plain_parse plain_context 1 (command_of run_123) (Some []) world0
  = Some (world0, Ok (JNum 123)).
Proof. reflexivity. Qed.

(** The four ways to call the constructor, with the empty argument list
    that is its default. *)
Example construction_runs :
  new_Command tt (with_both run_123) = Throw (JsError msg_both)
  /\ new_Command tt with_neither = Throw (JsError msg_neither)
  /\ new_Command tt (with_run run_123) = Throw JsTypeError
  /\ new_Command tt with_subcommands = Throw JsTypeError.
Proof. repeat split. Qed.

End CommandFacts.

(* ===================================================================== *)
(** ** Further facts: the builder *)
(* ===================================================================== *)

Module BuilderFacts.
Import Js Args Shape Samples Overloads ValidatorFacts.

Lemma getParams_of_string (n : option string) (o : ArgOpts) (x : option ArgOpts) :
  getParams (of_string n) (PObject o) x = (n, None, o).
Proof. destruct n; reflexivity. Qed.

(** The entry points build the spec from the triple [getParams] makes of
    their arguments: the second pass through [getParams], inside the
    builder, changes nothing.  An options bag ends the argument list:
    what is passed after it is ignored. *)
Theorem entry_points_normalise_once (defaultOptions : ArgOpts)
        (defaultParse : JsVal -> Res JsVal)
        (name description : Param) (options : option ArgOpts) :
  (forall n d o,
     getParams name description (Some (or_empty options)) = (n, d, o) ->
     call_required defaultOptions defaultParse name description options
     = arg_required defaultOptions defaultParse n d o
     /\ call_optional defaultOptions defaultParse name description options
        = arg_optional defaultOptions defaultParse n d o
     /\ call_rest defaultOptions defaultParse name description options
        = arg_rest defaultOptions defaultParse n d o)
  /\ (forall o,
        name = PObject o ->
        getParams name description options = (None, None, o))
  /\ (forall o,
        (forall o', name <> PObject o') -> description = PObject o ->
        getParams name description options = (as_string name, None, o)).
Proof.
  split; [|split].
  - intros n d o Hp.
    unfold call_required, call_optional, call_rest, call.
    rewrite Hp. simpl or_empty. rewrite !getParams_of_string.
    repeat split.
  - intros o ->. reflexivity.
  - intros o Hname ->. destruct name as [|s|o']; try reflexivity.
    exfalso. exact (Hname o' eq_refl).
Qed.

Lemma entry_points_normalise_once_witness :
  call_required arg_defaults identity_parse
                (PObject no_opts) (PString "ignored") None
  = arg_required arg_defaults identity_parse None None no_opts
  /\ getParams (PString "a") (PObject no_opts) (Some arg_defaults)
     = (Some "a"%string, None, no_opts).
Proof.
  split.
  - apply (proj1 (entry_points_normalise_once arg_defaults identity_parse
                    (PObject no_opts) (PString "ignored") None)
                 None None no_opts eq_refl).
  - apply (proj2 (proj2 (entry_points_normalise_once arg_defaults identity_parse
                    (PString "a") (PObject no_opts) (Some arg_defaults)))
                 no_opts); [intros o' H; discriminate H | reflexivity].
Defined.

(** Whatever the call shape and whatever the options say, also about
    [required] and [rest], [arg.required] builds a required spec,
    [arg.optional] one that is not, [arg.rest] one that is not required
    and is a rest slot; every new spec has the id [-1]. *)
Theorem entry_points_force_flags (defaultOptions : ArgOpts)
        (defaultParse : JsVal -> Res JsVal)
        (name description : Param) (options : option ArgOpts) :
  required (call_required defaultOptions defaultParse name description options) = true
  /\ required (call_optional defaultOptions defaultParse name description options) = false
  /\ required (call_rest defaultOptions defaultParse name description options) = false
  /\ rest (call_rest defaultOptions defaultParse name description options) = Some true
  /\ id_ (call_required defaultOptions defaultParse name description options) = -1
  /\ id_ (call_optional defaultOptions defaultParse name description options) = -1
  /\ id_ (call_rest defaultOptions defaultParse name description options) = -1
  /\ id_ (call defaultOptions defaultParse name description options) = -1.
Proof.
  unfold call_required, call_optional, call_rest, call.
  destruct (getParams name description (Some (or_empty options))) as [[n d] o].
  simpl or_empty. rewrite !getParams_of_string.
  repeat split.
Qed.

(** The kind of spec an entry point builds, when neither the builder's
    defaults nor the options of the call carry a [rest] key. *)
Lemma build_tag (defaultOptions : ArgOpts) (defaultParse : JsVal -> Res JsVal)
      (c : BuilderCall) :
  no_rest_key defaultOptions -> no_rest_key (bag c) ->
  tag_of (build defaultOptions defaultParse c) = Some (kind c).
Proof.
  unfold no_rest_key, bag, build, call_required, call_optional, call_rest, call.
  intros Hd Hc.
  destruct (getParams (call_name c) (call_description c)
                      (Some (or_empty (call_options c)))) as [[n d] o].
  simpl in Hc. simpl or_empty. rewrite !getParams_of_string.
  destruct (kind c); unfold tag_of; simpl; rewrite ?Hd, ?Hc; reflexivity.
Qed.

Lemma build_tags (defaultOptions : ArgOpts) (defaultParse : JsVal -> Res JsVal)
      (calls : list BuilderCall) :
  no_rest_key defaultOptions ->
  Forall (fun c => no_rest_key (bag c)) calls ->
  tags_of (map (build defaultOptions defaultParse) calls) = Some (map kind calls).
Proof.
  intros Hd Hall. induction Hall as [|c calls Hc _ IH]; [reflexivity|].
  simpl. rewrite (build_tag _ _ c Hd Hc), IH. reflexivity.
Qed.

(** A definition list made with the three entry points, with options
    that stay within [ArgOpts], passes [validateArgDefs] exactly when the
    entry points were used in the order required, optional, rest, with at
    most one rest. *)
Theorem built_lists_validate (defaultOptions : ArgOpts)
        (defaultParse : JsVal -> Res JsVal) (calls : list BuilderCall) :
  no_rest_key defaultOptions ->
  Forall (fun c => no_rest_key (bag c)) calls ->
  (validateArgDefs (map (build defaultOptions defaultParse) calls) = Ok tt
   <-> monotonic (map kind calls)).
Proof.
  intros Hd Hall. pose proof (build_tags _ defaultParse calls Hd Hall) as Hts.
  split.
  - intros Hok. exact (shape_from_required _ _ Hts Hok).
  - intros (k & m & r & Hshape & Hr). rewrite Hshape in Hts.
    exact (accepted_from_required k m r Hr _ Hts).
Qed.

Lemma built_lists_validate_witness :
  validateArgDefs
    (map (build arg_defaults identity_parse)
         [mkCall TRequired (PString "a") PUndefined None;
          mkCall TRest (PString "b") (PString "the rest") None])
  = Ok tt.
Proof.
  apply (built_lists_validate arg_defaults identity_parse
           [mkCall TRequired (PString "a") PUndefined None;
            mkCall TRest (PString "b") (PString "the rest") None]).
  - reflexivity.
  - repeat constructor.
  - exists 1%nat, 0%nat, 1%nat. split; [reflexivity|lia].
Defined.

Lemma spread_assoc {A} (a b c : option A) :
  spread (spread a b) c = spread a (spread b c).
Proof. destruct c; reflexivity. Qed.

(** Extending twice is extending once with the two option bags merged,
    the later bag winning; a spec built from an extended builder takes
    its parser from the call's options, else from the extension, else
    from the builder that was extended. *)
Theorem extend_composes (defaultOptions : ArgOpts)
        (defaultParse : JsVal -> Res JsVal) (o1 o2 : option ArgOpts) :
  extend (extend defaultOptions o1) o2
  = extend defaultOptions (Some (spread_opts (or_empty o1) (or_empty o2)))
  /\ forall n d o,
       parse (arg_ (extend defaultOptions o1) defaultParse n d o)
       = match o_parse o, o_parse (or_empty o1), o_parse defaultOptions with
         | Some p, _, _ => p
         | None, Some p, _ => p
         | None, None, Some p => p
         | None, None, None => defaultParse
         end.
Proof.
  split.
  - unfold extend, spread_opts. simpl. rewrite !spread_assoc. reflexivity.
  - intros n d o. unfold arg_, extend, spread_opts. simpl.
    destruct (o_parse o), (o_parse (or_empty o1)), (o_parse defaultOptions);
      reflexivity.
Qed.

(** *** Display *)

Lemma string_length_append (a b : string) :
  String.length (a ++ b) = (String.length a + String.length b)%nat.
Proof. induction a as [|c a IH]; simpl; [reflexivity|]. rewrite IH. reflexivity. Qed.

Lemma string_append_cancel_r (x y z : string) :
  (x ++ z = y ++ z)%string -> x = y.
Proof.
  revert y. induction x as [|c x IH]; intros [|c' y] H; simpl in H.
  - reflexivity.
  - apply (f_equal String.length) in H. simpl in H.
    rewrite string_length_append in H. lia.
  - apply (f_equal String.length) in H. simpl in H.
    rewrite string_length_append in H. lia.
  - injection H as -> H. f_equal. apply IH, H.
Qed.

Lemma toString_usage (toUpperCase : string -> string) (a : Arg) :
  flag (hidden a) = false ->
  toString toUpperCase a true
  = if required a then ("<" ++ label toUpperCase a ++ ">")%string
    else ("[" ++ ("<" ++ label toUpperCase a ++ ">") ++ "]")%string.
Proof.
  intros Hvis. unfold toString, label. rewrite Hvis.
  destruct (name a) as [n|].
  - destruct (String.eqb n "").
    + destruct (required a); reflexivity.
    + cbn. destruct (String.eqb (toUpperCase n) ""); destruct (required a);
        reflexivity.
  - destruct (required a); reflexivity.
Qed.

(** A hidden spec displays as the empty string in both forms.  The usage
    strings of two visible specs are equal only if both are required or
    both are not, and they are shown with the same label: the upper-cased
    name, or the placeholder for a spec without one. *)
Theorem usage_string_tells (toUpperCase : string -> string) (a b : Arg) :
  (forall usage, flag (hidden a) = true -> toString toUpperCase a usage = EmptyString)
  /\ (flag (hidden a) = false -> flag (hidden b) = false ->
      toString toUpperCase a true = toString toUpperCase b true ->
      required a = required b /\ label toUpperCase a = label toUpperCase b).
Proof.
  split.
  - intros usage Hh. unfold toString. rewrite Hh. reflexivity.
  - intros Ha Hb. rewrite (toString_usage _ a Ha), (toString_usage _ b Hb).
    destruct (required a), (required b); simpl; intros H;
      try discriminate H; injection H as H; split; try reflexivity.
    + apply (string_append_cancel_r _ _ ">"), H.
    + apply (string_append_cancel_r _ _ ">"), (string_append_cancel_r _ _ "]"), H.
Qed.

Lemma usage_string_tells_witness :
  toString (fun s => s) (required_arg "a") true
  <> toString (fun s => s) (optional_arg "a") true.
Proof.
  intros H.
  destruct (proj2 (usage_string_tells (fun s => s) (required_arg "a") (optional_arg "a"))
                  eq_refl eq_refl H) as [Hreq _].
  discriminate Hreq.
Defined.

End BuilderFacts.

(* ===================================================================== *)
(** ** Further facts: the validator and the maximum *)
(* ===================================================================== *)

Module ValidatorMore.
Import Js Args Shape Samples Overloads ValidatorFacts.

Lemma ordered_cons (d : Arg) (l : list Arg) :
  ordered (d :: l)
  <-> (l <> [] -> flag (rest d) = false)
      /\ (required d = false -> forall b, In b l -> required b = false)
      /\ ordered l.
Proof.
  split.
  - intros H. split; [|split].
    + intros Hne. destruct l as [|b l]; [contradiction|].
      exact (proj1 (H 0%nat 1%nat d b (Nat.lt_0_1) eq_refl eq_refl)).
    + intros Hd b Hin.
      apply list_elem_of_In, list_elem_of_lookup in Hin as [j Hj].
      exact (proj2 (H 0%nat (S j) d b (Nat.lt_0_succ j) eq_refl Hj) Hd).
    + intros i j a b Hij Ha Hb.
      exact (H (S i) (S j) a b (proj1 (Nat.succ_lt_mono i j) Hij) Ha Hb).
  - intros (Hrest & Hreq & Hl) i j a b Hij Ha Hb.
    destruct j as [|j]; [lia|]. simpl in Hb.
    destruct i as [|i]; simpl in Ha.
    + injection Ha as <-. split.
      * apply Hrest. intros ->. discriminate Hb.
      * intros Hd. apply (Hreq Hd).
        apply list_elem_of_In. eapply list_elem_of_lookup_2. exact Hb.
    + apply (Hl i j a b); [lia|exact Ha|exact Hb].
Qed.

Lemma ordered_nil : ordered [].
Proof. intros i j a b _ H. discriminate H. Qed.

Lemma validate_from_optional_iff (l : list Arg) :
  validate_from SOptional l = Ok tt
  <-> ordered l /\ forall b, In b l -> required b = false.
Proof.
  induction l as [|d l IH]; simpl.
  - split; [intros _; split; [exact ordered_nil|intros b []]|reflexivity].
  - rewrite is_true_flag, ordered_cons.
    destruct (required d) eqn:Hreq.
    + split; [discriminate|].
      intros [_ Hall]. specialize (Hall d (or_introl eq_refl)). congruence.
    + destruct (flag (rest d)) eqn:Hflag.
      * rewrite validate_from_rest. split.
        -- intros ->. split; [split; [congruence|split; [intros _ b []|exact ordered_nil]]|].
           intros b [<-|[]]. exact Hreq.
        -- intros [(Hrest & _) _]. destruct l as [|b l]; [reflexivity|].
           assert (true = false) by (apply Hrest; discriminate). discriminate.
      * rewrite IH. split.
        -- intros [Hord Hall]. split; [split; [reflexivity|split; [intros _|]; assumption]|].
           intros b [<-|Hin]; [exact Hreq|apply Hall, Hin].
        -- intros [(_ & _ & Hord) Hall]. split; [exact Hord|].
           intros b Hin. apply Hall. right. exact Hin.
Qed.

Lemma validate_from_required_iff (defs : list Arg) :
  validateArgDefs defs = Ok tt <-> ordered defs.
Proof.
  unfold validateArgDefs, validateNothingRequiredAfterOptional.
  induction defs as [|d l IH]; simpl.
  - split; [intros _; exact ordered_nil|reflexivity].
  - rewrite ordered_cons.
    destruct (flag (rest d)) eqn:Hflag.
    + rewrite validate_from_rest. split.
      * intros ->. split; [congruence|]. split; [intros _ b []|exact ordered_nil].
      * intros (Hrest & _). destruct l as [|b l]; [reflexivity|].
        assert (true = false) by (apply Hrest; discriminate). discriminate.
    + destruct (required d) eqn:Hreq; simpl.
      * rewrite IH. split.
        -- intros Hord. split; [reflexivity|]. split; [discriminate|exact Hord].
        -- intros (_ & _ & Hord). exact Hord.
      * rewrite validate_from_optional_iff. split.
        -- intros [Hord Hall]. split; [reflexivity|]. split; [intros _|]; assumption.
        -- intros (_ & Hall & Hord). split; [exact Hord|apply Hall; reflexivity].
Qed.

(** The validator in terms of the two flags alone, for every list of
    specs: a list passes exactly when nothing follows a spec with [rest]
    and no required spec follows one that is not required.  This covers
    the specs that set both flags. *)
Theorem validateArgDefs_ordered (defs : list Arg) :
  validateArgDefs defs = Ok tt <-> ordered defs.
Proof. exact (validate_from_required_iff defs). Qed.

(** Every stretch of a definition list that passes validation passes it
    too; in particular dropping specs from either end keeps a list
    valid. *)
Theorem validateArgDefs_segment (l1 l2 l3 : list Arg) :
  validateArgDefs (l1 ++ l2 ++ l3) = Ok tt -> validateArgDefs l2 = Ok tt.
Proof.
  rewrite !validate_from_required_iff. intros H i j a b Hij Ha Hb.
  apply (H (length l1 + i)%nat (length l1 + j)%nat a b); [lia| |].
  - rewrite lookup_app_r by lia.
    replace (length l1 + i - length l1)%nat with i by lia.
    apply lookup_app_l_Some, Ha.
  - rewrite lookup_app_r by lia.
    replace (length l1 + j - length l1)%nat with j by lia.
    apply lookup_app_l_Some, Hb.
Qed.

Lemma validateArgDefs_segment_witness :
  validateArgDefs [optional_arg "b"] = Ok tt.
Proof.
  apply (validateArgDefs_segment [required_arg "a"] [optional_arg "b"] [rest_arg "c"]).
  reflexivity.
Defined.

Lemma fold_numOptional_no_rest (l : list Arg) :
  forall acc,
    has_rest l = false ->
    fold_left (fun total arg => if flag (rest arg) then -1 else total + 1) l acc
    = acc + Z.of_nat (length l).
Proof.
  unfold has_rest, is_rest.
  induction l as [|a l IH]; intros acc Hno; simpl in *; [lia|].
  apply orb_false_iff in Hno as [Ha Hl]. rewrite Ha, (IH _ Hl). lia.
Qed.

Lemma fold_numOptional_lower (l : list Arg) :
  forall acc,
    -1 <= acc ->
    -1 <= fold_left (fun total arg => if flag (rest arg) then -1 else total + 1) l acc.
Proof.
  induction l as [|a l IH]; intros acc Hacc; simpl; [exact Hacc|].
  apply IH. destruct (flag (rest a)); lia.
Qed.

(** The maximum for an arbitrary list, validated or not: it is never
    below [-1], and when a spec with [rest] is followed by specs without,
    they alone are counted, less one.  So a rest spec that is not last
    does not make the list unbounded. *)
Theorem numOptionalArgs_after_rest (pre post : list Arg) (r : Arg) :
  -1 <= numOptionalArgs (pre ++ r :: post)
  /\ (flag (rest r) = true -> has_rest post = false ->
      numOptionalArgs (pre ++ r :: post) = Z.of_nat (length post) - 1).
Proof.
  unfold numOptionalArgs. split.
  - apply fold_numOptional_lower. lia.
  - intros Hr Hpost. rewrite fold_left_app. simpl. rewrite Hr.
    rewrite (fold_numOptional_no_rest post _ Hpost). lia.
Qed.

Lemma numOptionalArgs_after_rest_witness :
  numOptionalArgs [required_arg "a"; rest_arg "r"; optional_arg "b"; optional_arg "c"]
  = 1.
Proof.
  apply (proj2 (numOptionalArgs_after_rest [required_arg "a"]
                  [optional_arg "b"; optional_arg "c"] (rest_arg "r")));
    reflexivity.
Defined.

End ValidatorMore.

(* ===================================================================== *)
(** ** Further facts: the binder *)
(* ===================================================================== *)

Module BinderMore.
Import Js Args Shape Samples Overloads ValidatorFacts BinderFacts.

(** Stamping the ids again changes nothing: the id of a spec object
    depends on the list alone, not on the id it had. *)
Theorem addIdToArgs_idempotent (defs : list loc) (h : Heap) :
  (forall r, objs (fst (addIdToArgs defs (fst (addIdToArgs defs h)))) r
             = objs (fst (addIdToArgs defs h)) r)
  /\ arrs (fst (addIdToArgs defs (fst (addIdToArgs defs h)))) = arrs h.
Proof.
  destruct (addIdToArgs_from_spec defs 0 h) as (_ & Harr & Hobj).
  destruct (addIdToArgs_from_spec defs 0 (fst (addIdToArgs defs h)))
    as (_ & Harr' & Hobj').
  unfold addIdToArgs in *. split.
  - intros r. rewrite Hobj', Hobj.
    destruct (last_index r defs); reflexivity.
  - rewrite Harr', Harr. reflexivity.
Qed.

Lemma for_of_app {A} (l1 l2 : list A) (body : A -> M unit) (h : Heap) :
  for_of (l1 ++ l2) body h
  = match for_of l1 body h with
    | (h', Ok _) => for_of l2 body h'
    | (h', Throw e) => (h', Throw e)
    end.
Proof.
  revert h. induction l1 as [|x l1 IH]; intros h; [reflexivity|].
  simpl app. rewrite !for_of_cons.
  destruct (body x h) as [h' [[]|e]]; [apply IH|reflexivity].
Qed.

(** Each loop writes only at the ids of its specs: with all ids below
    [n], positions from [n] on keep their values and the array neither
    shrinks nor grows past [n], however the loop ends. *)
Lemma for_of_bind_supplied_beyond (args : loc) (n : nat) (l : list loc) :
  forall h,
    (forall r, In r l -> 0 <= id_ (objs h r) < Z.of_nat n) ->
    (forall x, Z.of_nat n <= x ->
       arr_get (arrs (fst (for_of l (bind_supplied args) h)) args) x
       = arr_get (arrs h args) x)
    /\ (length (arrs h args)
        <= length (arrs (fst (for_of l (bind_supplied args) h)) args)
        <= Nat.max (length (arrs h args)) n)%nat.
Proof.
  induction l as [|r l IH]; intros h Hid.
  - split; [reflexivity|simpl; lia].
  - rewrite for_of_cons, bind_supplied_eq.
    destruct (parse_token _ _) as [v|e]; [|split; [reflexivity|simpl; lia]].
    assert (0 <= id_ (objs h r) < Z.of_nat n) as Hr by (apply Hid; left; reflexivity).
    set (h1 := write h args (id_ (objs h r)) v).
    assert (length (arrs h1 args)
            = Nat.max (length (arrs h args)) (S (Z.to_nat (id_ (objs h r))))) as Hl1.
    { unfold h1. rewrite write_arrs_same, arr_set_length by lia. reflexivity. }
    destruct (IH h1) as [Hget Hlen].
    { intros r' Hin. unfold h1. rewrite write_objs. apply Hid. right. exact Hin. }
    split.
    + intros x Hx. rewrite (Hget x Hx). unfold h1.
      rewrite write_arrs_same, arr_get_set by lia.
      destruct (Z.eqb_spec x (id_ (objs h r))); [lia|reflexivity].
    + lia.
Qed.

Lemma for_of_fill_missing_beyond (args : loc) (n : nat) (l : list loc) :
  forall h,
    (forall r, In r l -> 0 <= id_ (objs h r) < Z.of_nat n) ->
    (forall x, Z.of_nat n <= x ->
       arr_get (arrs (fst (for_of l (fill_missing args) h)) args) x
       = arr_get (arrs h args) x)
    /\ (length (arrs h args)
        <= length (arrs (fst (for_of l (fill_missing args) h)) args)
        <= Nat.max (length (arrs h args)) n)%nat.
Proof.
  induction l as [|r l IH]; intros h Hid.
  - split; [reflexivity|simpl; lia].
  - rewrite for_of_cons.
    destruct (default_value (objs h r)) as [v|e] eqn:Hstep.
    + rewrite (fill_missing_ok args r h v Hstep).
      assert (0 <= id_ (objs h r) < Z.of_nat n) as Hr by (apply Hid; left; reflexivity).
      set (h1 := store_default h args (id_ (objs h r)) v).
      assert (objs h1 = objs h) as Ho1 by (unfold h1; destruct v; reflexivity).
      assert ((forall x, Z.of_nat n <= x ->
                 arr_get (arrs h1 args) x = arr_get (arrs h args) x)
              /\ (length (arrs h args) <= length (arrs h1 args)
                  <= Nat.max (length (arrs h args)) n)%nat) as [Hg1 Hl1].
      { assert ((forall x, Z.of_nat n <= x ->
                   arr_get (arrs (write h args (id_ (objs h r)) v) args) x
                   = arr_get (arrs h args) x)
                /\ (length (arrs h args)
                    <= length (arrs (write h args (id_ (objs h r)) v) args)
                    <= Nat.max (length (arrs h args)) n)%nat) as Hw.
        { split.
          - intros x Hx. rewrite write_arrs_same, arr_get_set by lia.
            destruct (Z.eqb_spec x (id_ (objs h r))); [lia|reflexivity].
          - rewrite write_arrs_same, arr_set_length by lia. lia. }
        unfold h1. destruct v; simpl; try exact Hw.
        split; [reflexivity|lia]. }
      destruct (IH h1) as [Hget Hlen].
      { intros r' Hin. rewrite Ho1. apply Hid. right. exact Hin. }
      split.
      * intros x Hx. rewrite (Hget x Hx). apply Hg1, Hx.
      * lia.
    + rewrite fill_missing_eq, Hstep. split; [reflexivity|simpl; lia].
Qed.

Lemma stamped_ids_in_range (defs : list loc) (h : Heap) (r : loc) :
  In r defs ->
  0 <= id_ (objs (fst (addIdToArgs defs h)) r) < Z.of_nat (length defs).
Proof.
  intros Hin. destruct (stamped_id defs h r Hin) as (j & -> & Hj & _).
  apply lookup_lt_Some in Hj. lia.
Qed.

(** In every outcome, for every definition list: the binder leaves the
    positions past the last spec as the caller supplied them, so tokens
    there, also those a rest spec stands for, are neither parsed nor
    checked against choices; and the array never shrinks, nor grows
    beyond the number of specs. *)
Theorem validateArgs_beyond_specs {Ctx C : Type} (ctx : Ctx)
        (defs : list loc) (args : loc) (h0 : Heap) :
  (forall x, Z.of_nat (length defs) <= x ->
     arr_get (arrs (fst (@validateArgs Ctx C ctx defs args h0)) args) x
     = arr_get (arrs h0 args) x)
  /\ (length (arrs h0 args)
      <= length (arrs (fst (@validateArgs Ctx C ctx defs args h0)) args)
      <= Nat.max (length (arrs h0 args)) (length defs))%nat.
Proof.
  rewrite validateArgs_heap, fill_unfold. cbv zeta.
  destruct (addIdToArgs_from_spec defs 0 h0) as (_ & Harr & _).
  fold (addIdToArgs defs h0) in Harr.
  set (h1 := fst (addIdToArgs defs h0)) in *.
  set (l1 := take (length (arrs h1 args)) defs).
  destruct (for_of_bind_supplied_beyond args (length defs) l1 h1) as [Hg1 Hl1].
  { intros r Hin. apply stamped_ids_in_range.
    apply list_elem_of_In. apply list_elem_of_In in Hin.
    exact (subseteq_take _ _ _ Hin). }
  destruct (for_of_bind_supplied_frame args l1 h1) as [Ho1 _].
  rewrite Harr in Hg1, Hl1.
  destruct (for_of l1 (bind_supplied args) h1) as [h2 [[]|e]];
    simpl in Hg1, Hl1, Ho1; [|simpl; split; assumption].
  set (l2 := drop (length (arrs h2 args)) defs).
  destruct (for_of_fill_missing_beyond args (length defs) l2 h2) as [Hg2 Hl2].
  { intros r Hin. rewrite Ho1. apply stamped_ids_in_range.
    apply list_elem_of_In. apply list_elem_of_In in Hin.
    exact (subseteq_drop _ _ _ Hin). }
  split.
  - intros x Hx. rewrite (Hg2 x Hx). apply Hg1, Hx.
  - lia.
Qed.

Lemma stamped_id_NoDup (defs : list loc) (h : Heap) (i : nat) (r : loc) :
  List.NoDup defs -> defs !! i = Some r ->
  id_ (objs (fst (addIdToArgs defs h)) r) = Z.of_nat i.
Proof.
  intros Hnd Hi.
  destruct (stamped_id defs h r) as (j & Hj & _ & Hlast).
  - apply list_elem_of_In. eapply list_elem_of_lookup_2. exact Hi.
  - rewrite (last_index_NoDup defs i r Hnd Hi) in Hlast.
    injection Hlast as <-. exact Hj.
Qed.

Lemma first_failure {Ctx C : Type} (ctx : Ctx)
        (defs : list loc) (args : loc) (h0 : Heap)
        (j : nat) (r : loc) (tok : JsVal) (e : Exn) :
  List.NoDup defs ->
  defs !! j = Some r ->
  arrs h0 args !! j = Some tok ->
  parse_token (objs h0 r) tok = Throw e ->
  (forall i r' tok', (i < j)%nat -> defs !! i = Some r' ->
     arrs h0 args !! i = Some tok' ->
     exists v, parse_token (objs h0 r') tok' = Ok v) ->
  snd (@validateArgs Ctx C ctx defs args h0) = Throw e
  /\ (forall i r' tok', (i < j)%nat -> defs !! i = Some r' ->
        arrs h0 args !! i = Some tok' ->
        parse_token (objs h0 r') tok'
        = Ok (arr_get (arrs (fst (@validateArgs Ctx C ctx defs args h0)) args)
                      (Z.of_nat i)))
  /\ (forall x, Z.of_nat j <= x ->
        arr_get (arrs (fst (@validateArgs Ctx C ctx defs args h0)) args) x
        = arr_get (arrs h0 args) x).
Proof.
  intros Hnd Hj Htok Hthrow Hbefore.
  destruct (addIdToArgs_from_spec defs 0 h0) as (_ & Harr & _).
  fold (addIdToArgs defs h0) in Harr.
  assert (forall r0, parse_token (objs (fst (addIdToArgs defs h0)) r0)
                     = parse_token (objs h0 r0)) as Hpt
    by (intros r0; apply addIdToArgs_rest).
  pose proof (fun i r0 => stamped_id_NoDup defs h0 i r0 Hnd) as Hid.
  assert (j < length (arrs h0 args))%nat as HjN by (apply lookup_lt_Some in Htok; exact Htok).
  assert (j < length defs)%nat as HjD by (apply lookup_lt_Some in Hj; exact Hj).
  assert (exists h2,
            fill defs args h0 = (h2, Throw e)
            /\ (forall i r' tok', (i < j)%nat -> defs !! i = Some r' ->
                  arrs h0 args !! i = Some tok' ->
                  parse_token (objs h0 r') tok'
                  = Ok (arr_get (arrs h2 args) (Z.of_nat i)))
            /\ (forall x, Z.of_nat j <= x ->
                  arr_get (arrs h2 args) x = arr_get (arrs h0 args) x))
    as (h2 & Hfill & Hvals & Hrest).
  { rewrite fill_unfold. cbv zeta.
    set (h1 := fst (addIdToArgs defs h0)) in *.
    rewrite Harr. set (N := length (arrs h0 args)) in *.
    assert (take N defs !! j = Some r) as Htj
      by (rewrite lookup_take_lt by exact HjN; exact Hj).
    rewrite <- (take_drop_middle (take N defs) j r Htj).
    set (l1 := take j (take N defs)).
    assert (length l1 = j) as Hl1len.
    { unfold l1. rewrite !length_take. lia. }
    assert (forall i r', l1 !! i = Some r' -> defs !! i = Some r' /\ (i < j)%nat)
      as Hl1.
    { intros i r' Hi. unfold l1 in Hi.
      apply lookup_take_Some in Hi as [Hi Hij].
      apply lookup_take_Some in Hi as [Hi _]. split; assumption. }
    rewrite for_of_app.
    pose proof (for_of_bind_supplied_values args l1 0 h1) as L1.
    pose proof (for_of_bind_supplied_frame args l1 h1) as [Ho2 _].
    destruct (for_of l1 (bind_supplied args) h1) as [h2 [[]|e']]; simpl in Ho2.
    - destruct L1 as (Hv & Hout & Hlen).
      { intros i r' Hi. apply Hid, Hl1, Hi. }
      { rewrite Harr. fold N. lia. }
      exists h2. rewrite for_of_cons, bind_supplied_eq, Ho2.
      rewrite (Hid j r Hj), Hout by lia.
      rewrite Harr, (arr_get_lookup _ _ _ Htok), Hpt, Hthrow.
      split; [reflexivity|]. split.
      + intros i r' tok' Hij Hi Htok'.
        assert (l1 !! i = Some r') as Hli.
        { unfold l1. rewrite lookup_take_lt by exact Hij.
          rewrite lookup_take_lt by lia. exact Hi. }
        specialize (Hv i r' Hli). simpl in Hv.
        rewrite Hpt, Harr, (arr_get_lookup _ _ _ Htok') in Hv. exact Hv.
      + intros x Hx. rewrite Hout by lia. rewrite Harr. reflexivity.
    - exfalso. destruct L1 as (i & r' & Hi & Hthrow').
      { intros i r' Hi. apply Hid, Hl1, Hi. }
      { rewrite Harr. fold N. lia. }
      destruct (Hl1 i r' Hi) as [Hdi Hij].
      destruct (lookup_lt_is_Some_2 (arrs h0 args) i) as [tok' Htok']; [fold N; lia|].
      simpl in Hthrow'.
      rewrite Hpt, Harr, (arr_get_lookup _ _ _ Htok') in Hthrow'.
      destruct (Hbefore i r' tok' Hij Hdi Htok') as [v Hv]. congruence. }
  rewrite validateArgs_heap, validateArgs_fill, Hfill. simpl.
  split; [reflexivity|]. split; assumption.
Qed.

(** For distinct spec objects the binder reports the first token, in
    positional order, that a choices check, a parser or a choices
    supplier refuses: it rejects with that very error; the earlier
    positions of the caller's array already hold their parsed values,
    the refused position and the later ones are as supplied. *)
Theorem first_failure_wins {Ctx C : Type} (ctx : Ctx)
        (defs : list loc) (args : loc) (h0 : Heap)
        (j : nat) (r : loc) (tok : JsVal) (e : Exn) :
  List.NoDup defs ->
  defs !! j = Some r ->
  arrs h0 args !! j = Some tok ->
  parse_token (objs h0 r) tok = Throw e ->
  (forall i r' tok', (i < j)%nat -> defs !! i = Some r' ->
     arrs h0 args !! i = Some tok' ->
     exists v, parse_token (objs h0 r') tok' = Ok v) ->
  snd (@validateArgs Ctx C ctx defs args h0) = Throw e
  /\ (forall i r' tok', (i < j)%nat -> defs !! i = Some r' ->
        arrs h0 args !! i = Some tok' ->
        parse_token (objs h0 r') tok'
        = Ok (arr_get (arrs (fst (@validateArgs Ctx C ctx defs args h0)) args)
                      (Z.of_nat i)))
  /\ (forall x, Z.of_nat j <= x ->
        arr_get (arrs (fst (@validateArgs Ctx C ctx defs args h0)) args) x
        = arr_get (arrs h0 args) x).
Proof. exact (first_failure ctx defs args h0 j r tok e). Qed.

Lemma first_failure_wins_witness :
  snd (run_binder [required_arg "a"; required_ab; required_ab]
                  [JStr "x"; JStr "c"; JStr "d"])
  = Throw (JsError (invalid_choice_message (JStr "c") ["a"; "b"]%string))
  /\ arr_get (arrs (fst (run_binder [required_arg "a"; required_ab; required_ab]
                                    [JStr "x"; JStr "c"; JStr "d"])) 0%nat) 2
     = JStr "d".
Proof.
  assert (List.NoDup [0%nat; 1%nat; 2%nat]) as Hnd.
  { repeat constructor; simpl; intros H; repeat destruct H as [H|H]; try discriminate H; exact H. }
  destruct (@first_failure_wins unit unit tt [0%nat; 1%nat; 2%nat] 0%nat
              (heap_of [required_arg "a"; required_ab; required_ab]
                       [JStr "x"; JStr "c"; JStr "d"])
              1%nat 1%nat (JStr "c")
              (JsError (invalid_choice_message (JStr "c") ["a"; "b"]%string))
              Hnd eq_refl eq_refl eq_refl) as (Hres & _ & Hrest).
  - intros [|i] r' tok' Hi Hd Ht; [|lia]. simpl in Hd, Ht.
    injection Hd as <-. injection Ht as <-. exists (JStr "x"). reflexivity.
  - split; [exact Hres|]. exact (Hrest 2 ltac:(lia)).
Defined.



(** When filling is through and the binder rejects with the
    required-arguments error, the error names exactly the specs of the
    list that are required and whose slot reads falsy, in the order of
    the list; it never names a spec that is not required. *)
Theorem required_error_names_exactly {Ctx C : Type} (ctx : Ctx)
        (defs : list loc) (args : loc) (h0 : Heap) (missing : list loc) :
  snd (fill defs args h0) = Ok tt ->
  snd (@validateArgs Ctx C ctx defs args h0) = Throw (RequiredArgsError missing) ->
  missing = missingRequired (fst (fill defs args h0)) defs args
  /\ forall r,
       In r missing
       <-> In r defs /\ required (objs h0 r) = true
           /\ truthy (slot_value (fst (fill defs args h0)) args r) = false.
Proof.
  intros Hok Hres.
  assert (missing = missingRequired (fst (fill defs args h0)) defs args) as ->.
  { rewrite validateArgs_fill in Hres.
    destruct (fill defs args h0) as [h3 res]. simpl in *. subst res.
    destruct (negb (length (missingRequired h3 defs args) =? 0)%nat).
    - simpl in Hres. injection Hres as <-. reflexivity.
    - destruct (_ && _); discriminate Hres. }
  split; [reflexivity|].
  intros r. unfold missingRequired, slot_value. rewrite filter_In.
  destruct (fill_frame defs args h0) as [Ho _]. rewrite Ho.
  destruct (addIdToArgs_rest defs h0 r) as (_ & -> & _).
  rewrite andb_true_iff, negb_true_iff. tauto.
Qed.

Lemma required_error_names_exactly_witness :
  snd (run_binder defs_a_b [JStr ""]) = Throw (RequiredArgsError [0%nat])
  /\ [0%nat] = missingRequired (fst (fill [0%nat; 1%nat] 0%nat
                                          (heap_of defs_a_b [JStr ""])))
                               [0%nat; 1%nat] 0%nat
  /\ ~ In 1%nat [0%nat].
Proof.
  split; [reflexivity|]. split.
  - exact (proj1 (@required_error_names_exactly unit unit tt [0%nat; 1%nat] 0%nat
                    (heap_of defs_a_b [JStr ""]) [0%nat] eq_refl eq_refl)).
  - intros H.
    apply (proj2 (@required_error_names_exactly unit unit tt [0%nat; 1%nat] 0%nat
                    (heap_of defs_a_b [JStr ""]) [0%nat] eq_refl eq_refl) 1%nat) in H.
    destruct H as (_ & Hreq & _). discriminate Hreq.
Defined.

Lemma filter_segment {A} (f : A -> bool) (l : list A) :
  forall a b : nat,
    (forall i x, l !! i = Some x -> f x = (a <=? i)%nat && (i <? b)%nat) ->
    List.filter f l = drop a (take b l).
Proof.
  induction l as [|x l IH]; intros a b H.
  - rewrite take_nil, drop_nil. reflexivity.
  - pose proof (H 0%nat x eq_refl) as Hx. simpl List.filter.
    destruct b as [|b].
    + rewrite andb_false_r in Hx. rewrite Hx.
      rewrite (IH a 0%nat).
      * simpl. rewrite take_0, !drop_nil. reflexivity.
      * intros i y Hy. rewrite (H (S i) y Hy), !andb_false_r. reflexivity.
    + destruct a as [|a].
      * simpl in Hx. rewrite Hx. simpl. f_equal.
        rewrite (IH 0%nat b); [reflexivity|].
        intros i y Hy. exact (H (S i) y Hy).
      * simpl in Hx. rewrite Hx. simpl.
        apply (IH a b). intros i y Hy. exact (H (S i) y Hy).
Qed.

(** Too few tokens, for distinct spec objects of which the first [k] are
    the required ones: with fewer than [k] tokens, each binding to a
    truthy value, and no default value for the required specs left
    without a token, the binder rejects with the required-arguments error
    that names exactly those specs, in order. *)
Theorem too_few_tokens {Ctx C : Type} (ctx : Ctx)
        (defs : list loc) (args : loc) (h0 : Heap) (k : nat) :
  List.NoDup defs ->
  (k <= length defs)%nat ->
  (length (arrs h0 args) < k)%nat ->
  (forall i r, defs !! i = Some r -> required (objs h0 r) = (i <? k)%nat) ->
  (forall i r tok, defs !! i = Some r -> arrs h0 args !! i = Some tok ->
     exists v, parse_token (objs h0 r) tok = Ok v /\ truthy v = true) ->
  (forall i r, defs !! i = Some r -> (length (arrs h0 args) <= i < k)%nat ->
     default_value (objs h0 r) = Ok JUndefined) ->
  (forall i r, defs !! i = Some r -> (k <= i)%nat ->
     exists v, default_value (objs h0 r) = Ok v) ->
  snd (@validateArgs Ctx C ctx defs args h0)
  = Throw (RequiredArgsError (drop (length (arrs h0 args)) (take k defs))).
Proof.
  intros Hnd Hk HN Hreq Hparse Hnone Hopt.
  rewrite validateArgs_fill.
  pose proof (fill_spec defs args h0 Hnd) as Hfill.
  destruct (fill_frame defs args h0) as [Hobjs _].
  destruct (fill defs args h0) as [h3 [[]|e]]; simpl in Hobjs.
  - destruct Hfill as (Hv & Hd & _ & _). cbv zeta.
    assert (missingRequired h3 defs args
            = drop (length (arrs h0 args)) (take k defs)) as ->.
    { apply filter_segment. intros i r Hi.
      rewrite Hobjs.
      destruct (addIdToArgs_rest defs h0 r) as (_ & -> & _).
      rewrite (stamped_id_NoDup defs h0 i r Hnd Hi), (Hreq i r Hi).
      destruct (Nat.leb_spec (length (arrs h0 args)) i) as [Hge|Hlt].
      - destruct (Nat.ltb_spec i k) as [Hik|Hik]; [|reflexivity].
        pose proof (Hd i r Hi Hge) as Hdv.
        rewrite (Hnone i r Hi (conj Hge Hik)) in Hdv.
        injection Hdv as <-. reflexivity.
      - destruct (lookup_lt_is_Some_2 (arrs h0 args) i Hlt) as [tok Htok].
        destruct (Hparse i r tok Hi Htok) as (v & Hpv & Htruthy).
        rewrite (Hv i r tok Hi Htok) in Hpv. injection Hpv as <-.
        rewrite Htruthy, andb_false_r. reflexivity. }
    assert (length (drop (length (arrs h0 args)) (take k defs)) <> 0%nat) as Hne.
    { rewrite length_drop, length_take. lia. }
    destruct (length (drop (length (arrs h0 args)) (take k defs))) eqn:E;
      [contradiction|reflexivity].
  - exfalso. destruct Hfill as [(i & r & tok & Hi & Htok & Hthrow)
                               | (i & r & Hi & HiN & Hthrow)].
    + destruct (Hparse i r tok Hi Htok) as (v & Hpv & _). congruence.
    + destruct (Nat.lt_ge_cases i k) as [Hik|Hik].
      * rewrite (Hnone i r Hi (conj HiN Hik)) in Hthrow. discriminate.
      * destruct (Hopt i r Hi Hik) as [v Hdv]. congruence.
Qed.

Lemma too_few_tokens_witness :
  snd (run_binder [required_arg "a"; required_arg "b"; optional_d] [JStr "x"])
  = Throw (RequiredArgsError [1%nat]).
Proof.
  assert (List.NoDup [0%nat; 1%nat; 2%nat]) as Hnd.
  { repeat constructor; simpl; intros H; repeat destruct H as [H|H]; try discriminate H; exact H. }
  apply (@too_few_tokens unit unit tt [0%nat; 1%nat; 2%nat] 0%nat
           (heap_of [required_arg "a"; required_arg "b"; optional_d] [JStr "x"])
           2%nat Hnd).
  - simpl. lia.
  - simpl. lia.
  - intros [|[|[|i]]] r Hi; simpl in Hi; try discriminate Hi;
      injection Hi as <-; reflexivity.
  - intros [|i] r tok Hi Htok; simpl in Hi, Htok; [|destruct i; discriminate Htok].
    injection Hi as <-. injection Htok as <-. exists (JStr "x"). split; reflexivity.
  - intros [|[|i]] r Hi [H1 H2]; simpl in Hi, H1; try lia.
    injection Hi as <-. reflexivity.
  - intros [|[|[|i]]] r Hi Hk; simpl in Hi; try lia; try discriminate Hi.
    injection Hi as <-. exists (JStr "d"). reflexivity.
Defined.

Lemma arr_set_same (a : list JsVal) (i : nat) :
  (i < length a)%nat ->
  arr_set a (Z.of_nat i) (arr_get a (Z.of_nat i)) = a.
Proof.
  intros Hi. unfold arr_set, arr_get.
  destruct (Z.ltb_spec (Z.of_nat i) 0) as [E|_]; [lia|].
  rewrite Nat2Z.id. destruct (Nat.ltb_spec i (length a)) as [_|E]; [|lia].
  destruct (lookup_lt_is_Some_2 a i Hi) as [v Hv]. rewrite Hv.
  apply list_insert_id, Hv.
Qed.

Lemma for_of_bind_supplied_identity (args : loc) (l : list loc) :
  forall (i0 : nat) (h : Heap),
    (forall j r, l !! j = Some r -> id_ (objs h r) = Z.of_nat (i0 + j)) ->
    (i0 + length l <= length (arrs h args))%nat ->
    (forall j r, l !! j = Some r ->
       parse_token (objs h r) (arr_get (arrs h args) (Z.of_nat (i0 + j)))
       = Ok (arr_get (arrs h args) (Z.of_nat (i0 + j)))) ->
    snd (for_of l (bind_supplied args) h) = Ok tt
    /\ arrs (fst (for_of l (bind_supplied args) h)) args = arrs h args.
Proof.
  induction l as [|r l IH]; intros i0 h Hid Hlen Hparse.
  - split; reflexivity.
  - rewrite for_of_cons, bind_supplied_eq. simpl in Hlen.
    assert (id_ (objs h r) = Z.of_nat i0) as Hr.
    { rewrite (Hid 0%nat r eq_refl). f_equal. lia. }
    pose proof (Hparse 0%nat r eq_refl) as Hstep.
    replace (Z.of_nat (i0 + 0)) with (Z.of_nat i0) in Hstep by (f_equal; lia).
    rewrite Hr, Hstep.
    set (h1 := write h args (Z.of_nat i0) (arr_get (arrs h args) (Z.of_nat i0))).
    assert (arrs h1 args = arrs h args) as Ha1.
    { unfold h1. rewrite write_arrs_same. apply arr_set_same. lia. }
    destruct (IH (S i0) h1) as [Hres Harr].
    + intros j r' Hj. unfold h1. rewrite write_objs, (Hid (S j) r' Hj). f_equal. lia.
    + rewrite Ha1. lia.
    + intros j r' Hj. rewrite Ha1. unfold h1. rewrite write_objs.
      replace (Z.of_nat (S i0 + j)) with (Z.of_nat (i0 + S j)) by (f_equal; lia).
      exact (Hparse (S j) r' Hj).
    + split; [exact Hres|]. rewrite Harr. exact Ha1.
Qed.

Lemma for_of_fill_missing_nothing (args : loc) (l : list loc) (h : Heap) :
  (forall r, In r l -> default_value (objs h r) = Ok JUndefined) ->
  for_of l (fill_missing args) h = (h, Ok tt).
Proof.
  induction l as [|r l IH]; intros H; [reflexivity|].
  rewrite for_of_cons, (fill_missing_ok args r h JUndefined)
    by (apply H; left; reflexivity).
  simpl. apply IH. intros r' Hin. apply H. right. exact Hin.
Qed.

(** Binding is the identity on the caller's array when each parser
    hands its token back and no default supplier yields a value, as with
    specs of the plain builder: for distinct spec objects the array after
    [validateArgs] is the array as supplied, element for element and in
    length, whether the call resolves or rejects in a final check. *)
Theorem plain_specs_pass_tokens {Ctx C : Type} (ctx : Ctx)
        (defs : list loc) (args : loc) (h0 : Heap) :
  List.NoDup defs ->
  (forall i r tok, defs !! i = Some r -> arrs h0 args !! i = Some tok ->
     parse_token (objs h0 r) tok = Ok tok) ->
  (forall i r, defs !! i = Some r -> (length (arrs h0 args) <= i)%nat ->
     default_value (objs h0 r) = Ok JUndefined) ->
  snd (fill defs args h0) = Ok tt
  /\ arrs (fst (@validateArgs Ctx C ctx defs args h0)) args = arrs h0 args.
Proof.
  intros Hnd Hparse Hnone.
  destruct (addIdToArgs_from_spec defs 0 h0) as (_ & Harr & _).
  fold (addIdToArgs defs h0) in Harr.
  assert (forall r0, parse_token (objs (fst (addIdToArgs defs h0)) r0)
                     = parse_token (objs h0 r0)) as Hpt
    by (intros r0; apply addIdToArgs_rest).
  assert (forall r0, default_value (objs (fst (addIdToArgs defs h0)) r0)
                     = default_value (objs h0 r0)) as Hdv
    by (intros r0; apply addIdToArgs_rest).
  rewrite validateArgs_heap, fill_unfold. cbv zeta.
  set (h1 := fst (addIdToArgs defs h0)) in *.
  rewrite Harr. set (N := length (arrs h0 args)).
  destruct (for_of_bind_supplied_identity args (take N defs) 0 h1) as [Hres1 Harr1].
  { intros j r Hj. apply lookup_take_Some in Hj as [Hj _].
    exact (stamped_id_NoDup defs h0 j r Hnd Hj). }
  { rewrite Harr, length_take. fold N. lia. }
  { intros j r Hj. apply lookup_take_Some in Hj as [Hj HjN].
    destruct (lookup_lt_is_Some_2 (arrs h0 args) j HjN) as [tok Htok].
    simpl. rewrite Hpt, Harr, (arr_get_lookup _ _ _ Htok).
    exact (Hparse j r tok Hj Htok). }
  pose proof (for_of_bind_supplied_frame args (take N defs) h1) as [Ho2 _].
  destruct (for_of (take N defs) (bind_supplied args) h1) as [h2 res1].
  simpl in Hres1, Harr1, Ho2. subst res1.
  rewrite Harr1, Harr. fold N.
  rewrite for_of_fill_missing_nothing.
  - simpl. split; [reflexivity|]. rewrite Harr1, Harr. reflexivity.
  - intros r Hin. apply list_elem_of_In, list_elem_of_lookup in Hin as [j Hj].
    rewrite lookup_drop in Hj. rewrite Ho2, Hdv.
    apply (Hnone (N + j)%nat r Hj). unfold N. lia.
Qed.

Lemma plain_specs_pass_tokens_witness :
  arrs (fst (run_binder defs_a_rest xyz)) 0%nat = xyz.
Proof.
  apply (@plain_specs_pass_tokens unit unit tt (addresses defs_a_rest) 0%nat
           (heap_of defs_a_rest xyz) NoDup_01).
  - intros [|[|i]] r tok Hi Htok; simpl in Hi; try discriminate Hi;
      injection Hi as <-; reflexivity.
  - intros [|[|i]] r Hi Hlen; simpl in Hi, Hlen; try discriminate Hi; lia.
Defined.

End BinderMore.

(* ===================================================================== *)
(** ** Further facts: exec *)
(* ===================================================================== *)

Module CommandMore.
Import Js Args Shape Samples Cmd CommandSamples DispatchSamples CommandFacts.

Section Facts.
Variables Flags FlagValues Context : Type.
Variable parse
  : FullOptions Flags FlagValues Context -> list JsVal
    -> IO (ParseResult Flags FlagValues Context).
Variable new_Context : Command Flags FlagValues Context -> IO Context.

Local Abbreviation Cmd_ := (Command Flags FlagValues Context).
Local Abbreviation exec_ := (exec parse new_Context).

(** An [exec] of this class never rejects with the version signal,
    whatever the parser, the context, the handlers and the subcommands
    do: the signal ends in the [catch] of the level that met it. *)
Theorem exec_never_rejects_with_version_signal
        (fuel : nat) (this : Cmd_) argv w w' err :
  exec_ fuel this argv w = Some (w', Throw err) ->
  instanceof_VersionSignal err = false.
Proof.
  exact (exec_contains_version_signal Flags FlagValues Context parse new_Context
           fuel this argv w w' err).
Qed.

(** Dispatch is transparent: when the parser selects a subcommand, the
    outcome of [exec], value or error and the world with it, is the
    outcome of the subcommand's [exec] on the bound arguments; nothing is
    written and the command's own handler is not consulted. *)
Theorem dispatch_is_transparent
        (fuel : nat) (this : Cmd_) argv w w1 p w2 ctx subcommand w3 res :
  parse (options this) (argv_or_default argv w) w = Some (w1, Ok p) ->
  new_Context this w1 = Some (w2, Ok ctx) ->
  p_subcommand p = Some subcommand ->
  exec_ fuel subcommand (Some (p_args p)) w2 = Some (w3, res) ->
  exec_ (S fuel) this argv w = Some (w3, res).
Proof.
  intros Hparse Hctx Hsub Hres.
  rewrite (exec_S Flags FlagValues Context parse new_Context fuel).
  rewrite exec_with_cases.
  unfold exec_body, io_bind. rewrite Hparse, Hctx, Hsub, Hres.
  destruct res as [v|err]; [reflexivity|].
  pose proof (exec_contains_version_signal _ _ _ parse new_Context
                fuel subcommand _ w2 w3 err Hres) as Hnot.
  destruct err; try reflexivity. discriminate Hnot.
Qed.

(** Without a selected subcommand the outcome of [exec] is the outcome
    of the run handler, a value or an error other than the version
    signal, in the world the handler left: [exec] adds no output and
    wraps nothing. *)
Theorem handler_outcome_passes_through
        (fuel : nat) (this : Cmd_) argv w w1 p w2 ctx handler w3 res :
  parse (options this) (argv_or_default argv w) w = Some (w1, Ok p) ->
  new_Context this w1 = Some (w2, Ok ctx) ->
  p_subcommand p = None ->
  run (options this) = Some handler ->
  handler (Build_RunParams (p_args p) (p_flags p) ctx) w2 = Some (w3, res) ->
  (forall v, res <> Throw (VersionSignal v)) ->
  exec_ (S fuel) this argv w = Some (w3, res).
Proof.
  intros Hparse Hctx Hsub Hrun Hres Hnot.
  rewrite (exec_S Flags FlagValues Context parse new_Context fuel).
  rewrite exec_with_cases.
  unfold exec_body, io_bind. rewrite Hparse, Hctx, Hsub, Hrun, Hres.
  destruct res as [v|err]; [reflexivity|].
  destruct err; try reflexivity. exfalso. exact (Hnot v eq_refl).
Qed.

(** A command without run handler, when the parser selects no
    subcommand, resolves with [undefined] and reports nothing: [exec]
    has no error for a command it cannot run. *)
Theorem exec_without_target
        (fuel : nat) (this : Cmd_) argv w w1 p w2 ctx :
  parse (options this) (argv_or_default argv w) w = Some (w1, Ok p) ->
  new_Context this w1 = Some (w2, Ok ctx) ->
  p_subcommand p = None ->
  run (options this) = None ->
  exec_ (S fuel) this argv w = Some (w2, Ok JUndefined).
Proof.
  intros Hparse Hctx Hsub Hrun.
  rewrite (exec_S Flags FlagValues Context parse new_Context fuel).
  rewrite exec_with_cases.
  unfold exec_body, io_bind. rewrite Hparse, Hctx, Hsub, Hrun. reflexivity.
Qed.

End Facts.

Lemma exec_never_rejects_with_version_signal_witness :
  exec failing_parse plain_context 1 (command_of run_123) (Some []) world0
  = Some (world0, Throw (JsError "unknown flag"))
  /\ instanceof_VersionSignal (JsError "unknown flag") = false.
Proof.
  split; [reflexivity|].
  apply (exec_never_rejects_with_version_signal unit unit unit
           failing_parse plain_context 1 (command_of run_123) (Some [])
           world0 world0 (JsError "unknown flag")).
  reflexivity.
Defined.

Lemma dispatch_is_transparent_witness :
  exec routing_parse plain_context 2 (parent_of (command_of run_123))
       (Some [JStr "child"]) world0
  = Some (world0, Ok (JNum 123))
  /\ exec routing_parse plain_context 2 (parent_of (command_of run_fails))
          (Some [JStr "child"]) world0
     = Some (world0, Throw (JsError "boom")).
Proof.
  split.
  - apply (dispatch_is_transparent unit unit unit routing_parse plain_context
             1 (parent_of (command_of run_123)) (Some [JStr "child"]) world0 world0
             (Build_ParseResult [JStr "child"] tt (Some (command_of run_123)))
             world0 tt (command_of run_123) world0 (Ok (JNum 123)));
      reflexivity.
  - apply (dispatch_is_transparent unit unit unit routing_parse plain_context
             1 (parent_of (command_of run_fails)) (Some [JStr "child"]) world0 world0
             (Build_ParseResult [JStr "child"] tt (Some (command_of run_fails)))
             world0 tt (command_of run_fails) world0 (Throw (JsError "boom")));
      reflexivity.
Defined.

Lemma handler_outcome_passes_through_witness :
  exec plain_parse plain_context 1 (command_of run_fails) (Some []) world0
  = Some (world0, Throw (JsError "boom")).
Proof.
  apply (handler_outcome_passes_through unit unit unit plain_parse plain_context
           0 (command_of run_fails) (Some []) world0 world0
           (Build_ParseResult [] tt None) world0 tt run_fails world0
           (Throw (JsError "boom")));
    try reflexivity.
  intros v H. discriminate H.
Defined.

Lemma exec_without_target_witness :
  exec routing_parse plain_context 1 childless (Some [JStr "anything"]) world0
  = Some (world0, Ok JUndefined).
Proof.
  apply (exec_without_target unit unit unit routing_parse plain_context
           0 childless (Some [JStr "anything"]) world0 world0
           (Build_ParseResult [JStr "anything"] tt None) world0 tt);
    reflexivity.
Defined.

End CommandMore.
